(** * DoadDoad: corpus lifecycle and tweet reconstruction

    A shallow embedding of [doaddoad.py]: the corpus store of the
    [DoadDoad] class (load, trim, save, insertion), the input sanitizer
    that prepares the corpus for dadadodo, and the output reconstructor
    that turns dadadodo's text into tweets.

    The program leans on three pieces of the Python library, which are
    embedded here as well, each from its CPython source:
    - the [str] and [bytes] methods it calls (module [Py]),
    - the backtracking matcher of [re] (module [Re]),
    - [textwrap.wrap] (module [TextWrap]).

    Text is a list of characters.  A character is a code point below
    256: [bytes] are covered in full and [str] on its Latin-1 range,
    which holds every text that dadadodo can hand back, since its output
    is decoded as ASCII. *)

From Stdlib Require Import ZArith String Ascii List Lia Bool.
From stdpp Require Import gmap strings list sorting.

(** Python's [str] and [bytes], both as lists of code points. *)
Abbreviation str := (list ascii) (only parsing).
Abbreviation bytes := (list ascii) (only parsing).

(* ===================================================================== *)
(** ** Python built-ins *)
(* ===================================================================== *)

Module Py.

(** A literal, written as a Rocq string. *)
Definition lit (s : string) : str := list_ascii_of_string s.

Definition code (c : ascii) : N := N_of_ascii c.

Definition between (lo hi : N) (c : ascii) : bool :=
  ((lo <=? code c) && (code c <=? hi))%N.

(** [str.isspace] on one character: TAB, LF, VT, FF, CR, the separators
    FS, GS, RS, US, the space, NEL and the no-break space. *)
Definition isspace (c : ascii) : bool :=
  between 9 13 c || between 28 32 c
  || (code c =? 133)%N || (code c =? 160)%N.

(** Whitespace of [bytes]: the six ASCII blanks. *)
Definition isspace_bytes (c : ascii) : bool :=
  between 9 13 c || (code c =? 32)%N.

Definition isdigit (c : ascii) : bool := between 48 57 c.

(** What [\w] accepts in a [str] pattern: [isalnum] or the underscore. *)
Definition isword (c : ascii) : bool :=
  between 48 57 c || between 65 90 c || (code c =? 95)%N
  || between 97 122 c
  || (code c =? 170)%N || between 178 179 c || (code c =? 181)%N
  || between 185 186 c || between 188 190 c
  || between 192 214 c || between 216 246 c || between 248 255 c.

(** What [\w] accepts in a [bytes] pattern. *)
Definition isword_bytes (c : ascii) : bool :=
  between 48 57 c || between 65 90 c || (code c =? 95)%N
  || between 97 122 c.

(** ASCII case mapping, as the matcher uses it under [re.IGNORECASE]. *)
Definition lower (c : ascii) : ascii :=
  if between 65 90 c then ascii_of_N (code c + 32) else c.
Definition upper (c : ascii) : ascii :=
  if between 97 122 c then ascii_of_N (code c - 32) else c.

Definition eqc (a b : ascii) : bool := Ascii.eqb a b.

Fixpoint lstrip (s : str) : str :=
  match s with
  | c :: s' => if isspace c then lstrip s' else s
  | [] => []
  end.

Definition rstrip (s : str) : str := rev (lstrip (rev s)).

(** [s.strip()] *)
Definition strip (s : str) : str := rstrip (lstrip s).

Fixpoint startswith (s p : str) : bool :=
  match p, s with
  | [], _ => true
  | a :: p', b :: s' => eqc a b && startswith s' p'
  | _ :: _, [] => false
  end.

(** [s.replace(old, new)] for a non-empty [old]: occurrences are taken
    from left to right and do not overlap.  [skip] counts the
    characters of the current occurrence that are still to be passed. *)
Fixpoint replace_from (old new s : str) (skip : nat) : str :=
  match s with
  | [] => []
  | c :: s' =>
      match skip with
      | S n => replace_from old new s' n
      | O =>
          if startswith s old
          then new ++ replace_from old new s' (length old - 1)
          else c :: replace_from old new s' 0
      end
  end.

Definition replace (s old new : str) : str := replace_from old new s 0.

(** [sep.join(parts)] *)
Fixpoint join (sep : str) (parts : list str) : str :=
  match parts with
  | [] => []
  | [p] => p
  | p :: rest => p ++ sep ++ join sep rest
  end.

(** [text.encode("ascii", "ignore")]: what is not ASCII is left out. *)
Definition encode_ascii_ignore (s : str) : bytes :=
  filter (fun c => (code c < 128)%N) s.

(** [str(b, "ascii")]: [None] stands for the UnicodeDecodeError. *)
Definition decode_ascii (b : bytes) : option str :=
  if forallb (fun c => (code c <? 128)%N) b then Some b else None.

(** [l[:stop]] *)
Definition slice_to {A} (l : list A) (stop : Z) : list A :=
  let n := Z.of_nat (length l) in
  let stop := if (stop <? 0)%Z then Z.max 0 (stop + n) else Z.min stop n in
  take (Z.to_nat stop) l.

(** [s.expandtabs(tabsize)]: [col] is the column reached in the line. *)
Fixpoint expandtabs_from (tabsize col : nat) (s : str) : str :=
  match s with
  | [] => []
  | c :: s' =>
      if eqc c "009"%char then
        match tabsize with
        | O => expandtabs_from tabsize col s'
        | S _ =>
            let incr := tabsize - col mod tabsize in
            repeat " "%char incr ++ expandtabs_from tabsize (col + incr) s'
        end
      else if eqc c "010"%char || eqc c "013"%char then
        c :: expandtabs_from tabsize 0 s'
      else c :: expandtabs_from tabsize (S col) s'
  end.

Definition expandtabs (s : str) (tabsize : nat) : str :=
  expandtabs_from tabsize 0 s.

(** [s.rfind(c, 0, stop)] for a single character and [0 <= stop]:
    the last index below [stop] that holds [c]. *)
Fixpoint rfind_from (c : ascii) (s : str) (i stop : nat) (found : option nat)
  : option nat :=
  match s with
  | [] => found
  | x :: s' =>
      if i <? stop
      then rfind_from c s' (S i) stop (if eqc x c then Some i else found)
      else found
  end.

Definition rfind (s : str) (c : ascii) (stop : nat) : option nat :=
  rfind_from c s 0 stop None.

End Py.

(** Exceptions that the modelled code raises or lets through. *)
Inductive exn : Type :=
| ValueError (msg : string)
| DoadDoadError (msg : string)
| UnicodeDecodeError
| UnpicklingError.

Inductive res (A : Type) : Type :=
| Ok (a : A)
| Raise (e : exn).
Arguments Ok {A} a.
Arguments Raise {A} e.

(* ===================================================================== *)
(** ** The matcher of [re] *)
(* ===================================================================== *)

Module Re.

(** A capturing group is numbered or named. *)
Inductive group_id : Type :=
| GNum (n : nat)
| GName (name : string).

Definition group_id_eqb (a b : group_id) : bool :=
  match a, b with
  | GNum n, GNum m => Nat.eqb n m
  | GName s, GName t => String.eqb s t
  | _, _ => false
  end.

(** The escapes [\s \S \w \W \d \D]. *)
Inductive category : Type :=
| Space | NotSpace | Word | NotWord | Digit | NotDigit.

(** An item between brackets. *)
Inductive set_item : Type :=
| SChar (c : ascii)
| SRange (lo hi : ascii)
| SCat (k : category).

(** Patterns.  [Rep min max greedy r] covers [r*], [r+], [r?],
    [r{m,n}] and their lazy forms; [Behind w r] is [(?<=r)] for an [r]
    that matches exactly [w] characters. *)
Inductive regex : Type :=
| Empty
| Lit (c : ascii)
| Dot
| In (negate : bool) (items : list set_item)
| Cat (r1 r2 : regex)
| Or (r1 r2 : regex)
| Rep (min : nat) (max : option nat) (greedy : bool) (r : regex)
| Grp (id : group_id) (r : regex)
| Ahead (r : regex)
| Behind (width : nat) (r : regex)
| Bos
| Eos
| EndZ.

(** [unicode] tells a [str] pattern from a [bytes] pattern. *)
Record flags : Type := { ignorecase : bool; unicode : bool }.

(** The matcher's state: the position, the text before it (nearest
    character first), the text after it, and the groups closed so far
    (latest first). *)
Record mstate : Type := MState {
  pos : nat;
  before : str;
  after : str;
  groups : list (group_id * str)
}.

Definition start (text : str) : mstate :=
  {| pos := 0; before := []; after := text; groups := [] |}.

Definition advance (c : ascii) (rest : str) (st : mstate) : mstate :=
  {| pos := S (pos st); before := c :: before st; after := rest;
     groups := groups st |}.

Definition with_groups (st : mstate) (g : list (group_id * str)) : mstate :=
  {| pos := pos st; before := before st; after := after st; groups := g |}.

(** Step back over the last [w] characters. *)
Definition rewind (w : nat) (st : mstate) : mstate :=
  {| pos := pos st - w; before := drop w (before st);
     after := rev (take w (before st)) ++ after st; groups := groups st |}.

Section Matcher.
Variable fl : flags.

Definition in_category (k : category) (c : ascii) : bool :=
  let space := if unicode fl then Py.isspace c else Py.isspace_bytes c in
  let word := if unicode fl then Py.isword c else Py.isword_bytes c in
  match k with
  | Space => space
  | NotSpace => negb space
  | Word => word
  | NotWord => negb word
  | Digit => Py.isdigit c
  | NotDigit => negb (Py.isdigit c)
  end.

Definition item_match (c : ascii) (it : set_item) : bool :=
  match it with
  | SChar x => Py.eqc c x
  | SRange lo hi => Py.between (Py.code lo) (Py.code hi) c
  | SCat k => in_category k c
  end.

Definition set_match (items : list set_item) (c : ascii) : bool :=
  if ignorecase fl
  then existsb (item_match c) items
       || existsb (item_match (Py.lower c)) items
       || existsb (item_match (Py.upper c)) items
  else existsb (item_match c) items.

Definition lit_match (x c : ascii) : bool :=
  if ignorecase fl then Py.eqc (Py.lower c) (Py.lower x) else Py.eqc c x.

(** One character against a test. *)
Definition one (test : ascii -> bool) (k : mstate -> option mstate)
    (st : mstate) : option mstate :=
  match after st with
  | c :: rest => if test c then k (advance c rest st) else None
  | [] => None
  end.

Definition below (cnt : nat) (max : option nat) : bool :=
  match max with
  | Some m => cnt <? m
  | None => true
  end.

(** The rounds of a repeat whose body is matched by [body]: [cnt]
    rounds are done, [k] matches what follows the repeat.  A greedy
    repeat tries one more round before it tries to stop, a lazy one
    the other way round.  A round that consumes nothing ends the
    repeat, so [fuel], the number of characters left when the repeat
    was entered, is never exhausted before the text is. *)
Fixpoint rep_loop
    (body : (mstate -> option mstate) -> mstate -> option mstate)
    (min : nat) (max : option nat) (greedy : bool)
    (k : mstate -> option mstate) (fuel cnt : nat) (st : mstate)
    {struct fuel} : option mstate :=
  let again (_ : unit) :=
    match fuel with
    | O => None
    | S fuel' =>
        if below cnt max
        then body (fun st' => if pos st <? pos st'
                              then rep_loop body min max greedy k fuel'
                                     (S cnt) st'
                              else None) st
        else None
    end in
  let stop (_ : unit) := if min <=? cnt then k st else None in
  if greedy
  then match again tt with Some m => Some m | None => stop tt end
  else match stop tt with Some m => Some m | None => again tt end.

(** [exec r k st] matches [r] at [st] and hands the state reached to
    the continuation [k], which matches what follows [r]; when [k]
    fails the matcher backtracks into [r], in the order of [re]: the
    left alternative first, a greedy repeat longest first, a lazy one
    shortest first. *)
Fixpoint exec (r : regex) (k : mstate -> option mstate) (st : mstate)
    {struct r} : option mstate :=
  match r with
  | Empty => k st
  | Lit x => one (lit_match x) k st
  | Dot => one (fun c => negb (Py.eqc c "010"%char)) k st
  | In negate items =>
      one (fun c => xorb negate (set_match items c)) k st
  | Cat r1 r2 => exec r1 (exec r2 k) st
  | Or r1 r2 =>
      match exec r1 k st with
      | Some m => Some m
      | None => exec r2 k st
      end
  | Rep min max greedy r' =>
      rep_loop (exec r') min max greedy k (length (after st)) 0 st
  | Grp id r' =>
      exec r'
        (fun st' =>
           k (with_groups st'
                ((id, take (pos st' - pos st) (after st)) :: groups st')))
        st
  | Ahead r' =>
      match exec r' Some st with
      | Some st' => k (with_groups st (groups st'))
      | None => None
      end
  | Behind w r' =>
      if w <=? pos st
      then match exec r'
                   (fun st' => if pos st' =? pos st then Some st' else None)
                   (rewind w st) with
           | Some st' => k (with_groups st (groups st'))
           | None => None
           end
      else None
  | Bos => if pos st =? 0 then k st else None
  | Eos =>
      match after st with
      | [] => k st
      | [c] => if Py.eqc c "010"%char then k st else None
      | _ => None
      end
  | EndZ =>
      match after st with
      | [] => k st
      | _ => None
      end
  end.

(** [pattern.match(text)]: a match that starts at position 0. *)
Definition re_match (r : regex) (text : str) : option mstate :=
  exec r Some (start text).

(** What a scan over the text yields: the stretches that no match
    covers, and the matches. *)
Inductive piece : Type :=
| Gap (s : str)
| Hit (m : mstate).

(** The search loop that [sub] and [split] share.  The text is walked
    once; [skip] counts the characters of the last match still to be
    passed, [gap] holds (latest first) the characters since the last
    match; [step gap' len] moves on after a match of [len] characters
    (none for [len = 0]).  After an empty match the search is tried again from the
    same place for a match that advances, as the library does. *)
Fixpoint scan (r : regex) (bef : str) (p : nat) (rest : str)
    (skip : nat) (gap : str) {struct rest} : list piece :=
  match skip with
  | S n =>
      match rest with
      | c :: rest' => scan r (c :: bef) (S p) rest' n gap
      | [] => [Gap (rev gap)]
      end
  | O =>
      let st := {| pos := p; before := bef; after := rest; groups := [] |} in
      let step (gap' : str) (len : nat) :=
        match rest with
        | c :: rest' =>
            match len with
            | O => scan r (c :: bef) (S p) rest' 0 (c :: gap')
            | S n => scan r (c :: bef) (S p) rest' n gap'
            end
        | [] => [Gap (rev gap')]
        end in
      match exec r Some st with
      | None => step gap 0
      | Some m =>
          Gap (rev gap) :: Hit m ::
          match pos m - p with
          | S n => step [] (S n)
          | O =>
              match exec r (fun m' => if p <? pos m' then Some m' else None)
                      st with
              | Some m' => Gap [] :: Hit m' :: step [] (pos m' - p)
              | None => step [] 0
              end
          end
      end
  end.

Definition finditer (r : regex) (text : str) : list piece :=
  scan r [] 0 text 0 [].

End Matcher.

(** [m.group(id)]: [None] when the group took no part in the match. *)
Fixpoint lookup_group (id : group_id) (g : list (group_id * str))
  : option str :=
  match g with
  | [] => None
  | (id', s) :: g' => if group_id_eqb id id' then Some s else lookup_group id g'
  end.

Definition group (m : mstate) (id : group_id) : option str :=
  lookup_group id (groups m).

(** [re.sub(pattern, repl, text)] for a replacement without escapes. *)
Definition sub (fl : flags) (r : regex) (repl text : str) : str :=
  flat_map (fun pc => match pc with Gap s => s | Hit _ => repl end)
    (finditer fl r text).

(** [pattern.split(text)]: the gaps, and after each match its groups
    [ids], [None] for a group that took no part. *)
Definition split (fl : flags) (r : regex) (ids : list group_id) (text : str)
  : list (option str) :=
  flat_map (fun pc => match pc with
                      | Gap s => [Some s]
                      | Hit m => map (group m) ids
                      end)
    (finditer fl r text).

Definition str_flags : flags := {| ignorecase := false; unicode := true |}.
Definition bytes_flags (icase : bool) : flags :=
  {| ignorecase := icase; unicode := false |}.

(** Pattern syntax. *)
Definition star (r : regex) : regex := Rep 0 None true r.
Definition plus (r : regex) : regex := Rep 1 None true r.
Definition opt (r : regex) : regex := Rep 0 (Some 1) true r.
Definition lazy_plus (r : regex) : regex := Rep 1 None false r.
Definition esc (k : category) : regex := In false [SCat k].

End Re.

Declare Scope re_scope.
Delimit Scope re_scope with re.
Bind Scope re_scope with Re.regex.
Infix "@@" := Re.Cat (at level 41, right associativity) : re_scope.
Infix "|||" := Re.Or (at level 50, left associativity) : re_scope.

(* ===================================================================== *)
(** ** [textwrap.wrap] *)
(* ===================================================================== *)

(** [TextWrapper] with the attributes that [textwrap.wrap(text, width)]
    leaves at their defaults: no indents, [expand_tabs],
    [replace_whitespace], [drop_whitespace], [break_long_words] and
    [break_on_hyphens] set, [fix_sentence_endings] unset, [tabsize] 8 and
    no [max_lines]. *)
Module TextWrap.
Import Re.

(** ['\t\n\x0b\x0c\r '] *)
Definition _whitespace : str :=
  ["009"; "010"; "011"; "012"; "013"; " "]%char.

Definition word_punct : regex :=
  In false [SCat Word; SChar "!"; SChar "034"; SChar "'"; SChar "&";
            SChar "."; SChar ","; SChar "?"]%char.
Definition letter : regex := In true [SCat Digit; SCat NotWord].
Definition whitespace : regex := In false (map SChar _whitespace).
Definition nowhitespace : regex := In true (map SChar _whitespace).
Definition hyphen : regex := Lit "-".

(** The pattern that cuts a text into chunks:
<<
  ( # any whitespace
    ws+
  | # em-dash between words
    (?<=wp) -{2,} (?=\w)
  | # word, possibly hyphenated
    nws+? (?:
      # hyphenated word
        -(?: (?<=lt{2}-) | (?<=lt-lt-))
        (?= lt -? lt)
      | # end of word
        (?=ws|\Z)
      | # em-dash
        (?<=wp) (?=-{2,}\w)
      )
  )
>> *)
Definition wordsep_re : regex :=
  Grp (GNum 1)
    (plus whitespace
     ||| (Behind 1 word_punct @@ Rep 2 None true hyphen @@ Ahead (esc Word))
     ||| (lazy_plus nowhitespace @@
            ((hyphen @@
                (Behind 3 (Rep 2 (Some 2) true letter @@ hyphen)
                 ||| Behind 4 (letter @@ hyphen @@ letter @@ hyphen)) @@
                Ahead (letter @@ opt hyphen @@ letter))
             ||| Ahead (whitespace ||| EndZ)
             ||| (Behind 1 word_punct @@
                    Ahead (Rep 2 None true hyphen @@ esc Word)))))%re.

(** [text.translate(unicode_whitespace_trans)] *)
Definition translate (text : str) : str :=
  map (fun c => if existsb (Py.eqc c) _whitespace then " "%char else c) text.

Definition _munge_whitespace (text : str) : str :=
  translate (Py.expandtabs text 8).

(** [[c for c in chunks if c]] *)
Definition truthy (c : option str) : option str :=
  match c with
  | Some (_ :: _) => c
  | _ => None
  end.

Definition _split (text : str) : list str :=
  omap truthy (split str_flags wordsep_re [GNum 1] text).

(** [c.strip() == ''] *)
Definition blank (c : str) : bool :=
  match Py.strip c with
  | [] => true
  | _ :: _ => false
  end.

(** The chunks still to be placed are kept in reading order, so that
    the head of the list is [chunks[-1]] of the reversed list of the
    source. *)
Definition _handle_long_word (chunks cur_line : list str)
    (cur_len width : nat) : list str * list str :=
  let space_left := if width <? 1 then 1 else width - cur_len in
  match chunks with
  | chunk :: rest =>
      let stop :=
        if space_left <? length chunk then
          match Py.rfind chunk "-"%char space_left with
          | Some hyphen =>
              if (0 <? hyphen)
                 && existsb (fun c => negb (Py.eqc c "-"%char))
                      (take hyphen chunk)
              then hyphen + 1
              else space_left
          | None => space_left
          end
        else space_left in
      (drop stop chunk :: rest, cur_line ++ [take stop chunk])
  | [] => (chunks, cur_line)
  end.

(** The inner loop: chunks go onto the line while they fit. *)
Fixpoint fill (width : nat) (chunks cur_line : list str) (cur_len : nat)
  : list str * nat * list str :=
  match chunks with
  | c :: rest =>
      if cur_len + length c <=? width
      then fill width rest (cur_line ++ [c]) (cur_len + length c)
      else (cur_line, cur_len, chunks)
  | [] => (cur_line, cur_len, [])
  end.

(** First chunk on line is whitespace -- drop it, unless this is the
    very beginning of the text (ie. no lines started yet). *)
Definition drop_first (chunks lines : list str) : list str :=
  match chunks with
  | c :: rest =>
      if blank c && negb (bool_decide (lines = [])) then rest else chunks
  | [] => chunks
  end.

(** The current line is full, and the next chunk is too big to fit on
    any line (not just this one). *)
Definition break_long (width : nat) (chunks cur_line : list str)
    (cur_len : nat) : list str * list str :=
  match chunks with
  | c :: _ =>
      if width <? length c
      then _handle_long_word chunks cur_line cur_len width
      else (chunks, cur_line)
  | [] => (chunks, cur_line)
  end.

(** If the last chunk on this line is all whitespace, drop it. *)
Definition drop_last (cur_line : list str) : list str :=
  match last cur_line with
  | Some c => if blank c then removelast cur_line else cur_line
  | None => cur_line
  end.

(** One round of the outer loop: a line is made and, unless it has no
    chunk, stored. *)
Definition wrap_line (width : nat) (chunks lines : list str)
  : list str * list str :=
  let chunks := drop_first chunks lines in
  let '(cur_line, cur_len, chunks) := fill width chunks [] 0 in
  let '(chunks, cur_line) := break_long width chunks cur_line cur_len in
  let cur_line := drop_last cur_line in
  match cur_line with
  | [] => (chunks, lines)
  | _ :: _ => (chunks, lines ++ [concat cur_line])
  end.

Fixpoint wrap_loop (fuel width : nat) (chunks lines : list str) : list str :=
  match fuel, chunks with
  | S fuel', _ :: _ =>
      let '(chunks', lines') := wrap_line width chunks lines in
      wrap_loop fuel' width chunks' lines'
  | _, _ => lines
  end.

(** Every round of the loop lowers this number, which therefore bounds
    the rounds. *)
Definition weight (chunks : list str) : nat :=
  sum_list (map (fun c => S (length c)) chunks).

Definition _wrap_chunks (width : nat) (chunks : list str) : res (list str) :=
  if width <=? 0
  then Raise (ValueError "invalid width (must be > 0)")
  else Ok (wrap_loop (weight chunks) width chunks []).

Definition _split_chunks (text : str) : list str :=
  _split (_munge_whitespace text).

(** [textwrap.wrap(text, width)] *)
Definition wrap (text : str) (width : nat) : res (list str) :=
  _wrap_chunks width (_split_chunks text).

End TextWrap.

(* ===================================================================== *)
(** ** The output reconstructor *)
(* ===================================================================== *)

Definition TWEET_MAXLENGTH : nat := 140.

(** The pattern of [_fix_rt], piece by piece: the group [lead], which is
    [^] and a greedy run of any characters; the second group,
    [[Rr][Tt]]; one or more spaces; an optional [@]; the group [who],
    which is [\S+]; an optional space; the group [trail], a greedy run of
    any characters; and [$]. *)
Definition rt_find_re : Re.regex :=
  (Re.Grp (Re.GName "lead") (Re.Bos @@ Re.star Re.Dot) @@
   Re.Grp (Re.GNum 2)
     (Re.In false [Re.SChar "R"; Re.SChar "r"] @@
      Re.In false [Re.SChar "T"; Re.SChar "t"]) @@
   Re.plus (Re.Lit " ") @@
   Re.opt (Re.Lit "@") @@
   Re.Grp (Re.GName "who") (Re.plus (Re.esc Re.NotSpace)) @@
   Re.opt (Re.Lit " ") @@
   Re.Grp (Re.GName "trail") (Re.star Re.Dot) @@
   Re.Eos)%re%char.

(** [%s] applied to what [group] returns. *)
Definition fmt_s (o : option str) : str :=
  match o with
  | Some s => s
  | None => Py.lit "None"
  end.

(** If an RT is generated in the middle of a tweet, move RT at the
    beginning and prepend whatever word was after that with [@]. *)
Definition _fix_rt (text : str) : str :=
  match Re.re_match Re.str_flags rt_find_re text with
  | Some rt_match =>
      Py.strip
        (Py.lit "RT @" ++ fmt_s (Re.group rt_match (Re.GName "who"))
         ++ Py.lit " " ++ fmt_s (Re.group rt_match (Re.GName "lead"))
         ++ fmt_s (Re.group rt_match (Re.GName "trail")))
  | None => text
  end.

(** The first two statements of [_extract_tweets]. *)
Definition normalize (text : str) : str :=
  let text :=
    Py.strip (Py.replace (Py.replace text ["009"%char] (Py.lit " "))
                ["010"%char] (Py.lit " ")) in
  Re.sub Re.str_flags (Re.plus (Re.esc Re.Space)) (Py.lit " ") text.

(** Fix output from dadadodo into a usable tweet.  The generator is
    given as the list of what it yields. *)
Definition _extract_tweets (text : str) : res (list str) :=
  match TextWrap.wrap (normalize text) TWEET_MAXLENGTH with
  | Ok tweets => Ok (map _fix_rt tweets)
  | Raise e => Raise e
  end.

(* ===================================================================== *)
(** ** The corpus store *)
(* ===================================================================== *)

(** What the program reads of a [twitter.Status]. *)
Record Status : Type := { id : Z; text : str }.

(** Modelled from the spec: the class [Tweet] of the module [Tweet],
    which the program imports and which is not among its sources.  A
    stored post wraps the status it was made from; its language code is
    one of a fixed set of detectable codes, or unknown. *)
Record Tweet : Type := { status : Status }.

(** Modelled from the spec: the rest of the module [Tweet], namely the
    class attribute [language_codes] and the method
    [get_language_code], whose cache is not observable. *)
Record TweetModule : Type := {
  language_codes : list string;
  get_language_code : Tweet -> option string
}.

(** What a file holds: a pickled dict, given by its items, or anything
    else. *)
Inductive File : Type :=
| Pickled (items : list (Z * Tweet))
| Other (content : bytes).

(** The world around the program: the file system, the dadadodo binary
    as the output it gives for a command line and an input, the processes
    launched so far (latest first), and the numbers that the random
    source will draw. *)
Record World : Type := {
  files : gmap string File;
  run : list string -> bytes -> bytes;
  launched : list (list string * bytes);
  tape : list nat
}.

Definition write_file (path : string) (f : File) (w : World) : World :=
  {| files := <[path := f]> (files w); run := run w;
     launched := launched w; tape := tape w |}.

(** [pickle.dump] and [pickle.load] on a dict of stored posts. *)
Definition pickle_dump (d : gmap Z Tweet) : File := Pickled (map_to_list d).
Definition pickle_load (f : File) : res (gmap Z Tweet) :=
  match f with
  | Pickled items => Ok (list_to_map items)
  | Other _ => Raise UnpicklingError
  end.

Record DoadDoad : Type := {
  dadadodo_cmd : list string;
  dadadodo_opts : list string;
  state : gmap Z Tweet;
  state_file : string
}.

Definition set_state (self : DoadDoad) (st : gmap Z Tweet) : DoadDoad :=
  {| dadadodo_cmd := dadadodo_cmd self; dadadodo_opts := dadadodo_opts self;
     state := st; state_file := state_file self |}.

Definition __init__ (state_file dadadodo_bin : string) (w : World)
  : res DoadDoad :=
  match files w !! dadadodo_bin with
  | None => Raise (ValueError "can't find dadadodo")
  | Some _ =>
      Ok {| dadadodo_cmd := [dadadodo_bin]; dadadodo_opts := ["-c"; "1"; "-"];
            state := ∅; state_file := state_file |}
  end%string.

Definition load_state (self : DoadDoad) (w : World) : res DoadDoad :=
  match files w !! state_file self with
  | None => Ok self
  | Some f =>
      match pickle_load f with
      | Ok st => Ok (set_state self st)
      | Raise e => Raise e
      end
  end.

(** [sorted(self.state)]: the keys in increasing order. *)
Definition sorted (st : gmap Z Tweet) : list Z :=
  merge_sort Z.le (fst <$> map_to_list st).

(** Instead of fiddling with timestamps, assume there's a correlation
    between tweet id and the time it has been posted.  Thus, sort the
    state and keep only the limit biggest ids. *)
Definition _trim_state (limit : Z) (self : DoadDoad) : DoadDoad :=
  if (limit =? 0)%Z then self
  else
    set_state self
      (foldl (fun st key => delete key st) (state self)
         (Py.slice_to (sorted (state self)) (- limit))).

(** Persist the state to [state_file], using only the newest [limit]
    tweets. *)
Definition save_state (limit : Z) (self : DoadDoad) (w : World)
  : DoadDoad * World :=
  let self := _trim_state limit self in
  (self, write_file (state_file self) (pickle_dump (state self)) w).

(** Encapsulate [twitter.Status] into our own cld-aware [Tweet]. *)
Definition _add_tweet (tweet : Status) (self : DoadDoad) : DoadDoad :=
  let tweet := {| status := tweet |} in
  set_state self (<[id (status tweet) := tweet]> (state self)).

(** What [GetUserTimeline] answers: a timeline, or a [TwitterError]
    with its message. *)
Inductive answer (A : Type) : Type :=
| Answered (a : A)
| TwitterError (message : string).
Arguments Answered {A} a.
Arguments TwitterError {A} message.

Record Api : Type := {
  GetUserTimeline : Z -> nat -> answer (list Status)
}.

(** The body of the loop of [add_timeline]: add a not-yet-seen tweet to
    the state, which is keyed by tweet id. *)
Definition add_unseen (self : DoadDoad) (tweet : Status) : DoadDoad :=
  if bool_decide (id tweet ∈ dom (state self)) then self
  else _add_tweet tweet self.

(** Add the last [count] tweets from the specified user.  A
    [TwitterError] is logged and nothing else happens. *)
Definition add_timeline (twitter : Api) (user : Z) (count : nat)
    (self : DoadDoad) : DoadDoad :=
  match GetUserTimeline twitter user count with
  | Answered timeline => foldl add_unseen self timeline
  | TwitterError _ => self
  end.

(* ===================================================================== *)
(** ** The input sanitizer and the generation of tweets *)
(* ===================================================================== *)

(** [https?://(\S+)?], the pattern of the links. *)
Definition link_re : Re.regex :=
  (Re.Lit "h" @@ Re.Lit "t" @@ Re.Lit "t" @@ Re.Lit "p" @@
   Re.opt (Re.Lit "s") @@ Re.Lit ":" @@ Re.Lit "/" @@ Re.Lit "/" @@
   Re.opt (Re.Grp (Re.GNum 1) (Re.plus (Re.esc Re.NotSpace))))%re%char.

(** The body of the loop of [_dadadodo_input] for one tweet: dadadodo
    seems to ignore non-ascii input, and the corpus is not to be polluted
    with links. *)
Definition munge (t : str) : bytes :=
  let text := Py.encode_ascii_ignore t in
  let text := Re.sub (Re.bytes_flags false) (Re.plus (Re.esc Re.Space))
                (Py.lit " ") text in
  Re.sub (Re.bytes_flags true) link_re [] text.

(** [random.shuffle]: from the last index down, each element is
    exchanged with one at a drawn index not above its own. *)
Definition randbelow (n : nat) (tape : list nat) : nat * list nat :=
  match tape with
  | r :: tape' => (r mod n, tape')
  | [] => (0, [])
  end.

Fixpoint shuffle_from {A} (i : nat) (x : list A) (tape : list nat)
  : list A * list nat :=
  match i with
  | O => (x, tape)
  | S i' =>
      let '(j, tape) := randbelow (S i) tape in
      let x :=
        match x !! i, x !! j with
        | Some xi, Some xj => <[j := xi]> (<[i := xj]> x)
        | _, _ => x
        end in
      shuffle_from i' x tape
  end.

Definition shuffle {A} (x : list A) (tape : list nat) : list A * list nat :=
  shuffle_from (length x - 1) x tape.

(** A language filter counts when it is neither [None] nor empty. *)
Definition truth (language : option string) : bool :=
  match language with
  | Some (String _ _) => true
  | _ => false
  end.

(** [language in codes] *)
Definition member (language : option string) (codes : list string) : bool :=
  match language with
  | Some l => bool_decide (l ∈ codes)
  | None => false
  end.

Section Generation.
Variable Tw : TweetModule.

(** Generate input for dadadodo, munge the state into something
    usable.  The generator is given as the list of what it yields. *)
Definition _dadadodo_input (language : option string) (self : DoadDoad)
    (w : World) : list bytes * World :=
  let shuffled_ids := map fst (map_to_list (state self)) in
  let '(shuffled_ids, tape') := shuffle shuffled_ids (tape w) in
  let texts :=
    omap (fun tweet_id =>
            match state self !! tweet_id with
            | Some tweet =>
                if truth language
                   && negb (bool_decide (language = get_language_code Tw tweet))
                then None
                else Some (munge (text (status tweet)))
            | None => None
            end) shuffled_ids in
  (texts, {| files := files w; run := run w; launched := launched w;
             tape := tape' |}).

(** dadadodo is ascii only, force encoding from bytes. *)
Definition _run_dadadodo (input_string : bytes) (self : DoadDoad)
    (w : World) : res str * World :=
  let cmd := dadadodo_cmd self ++ dadadodo_opts self in
  let out := run w cmd input_string in
  let w := {| files := files w; run := run w;
              launched := (cmd, input_string) :: launched w;
              tape := tape w |} in
  match Py.decode_ascii out with
  | Some s => (Ok s, w)
  | None => (Raise UnicodeDecodeError, w)
  end.

(** Generate a random tweet from the given state, consider only tweets
    in the given language. *)
Definition generate_tweets (language : option string) (self : DoadDoad)
    (w : World) : res (list str) * World :=
  if truth language && negb (member language (language_codes Tw))
  then (Raise (DoadDoadError "language is not detectable"), w)
  else
    let '(texts, w) := _dadadodo_input language self w in
    let input_text := Py.join (Py.lit " ") texts in
    let '(result, w) := _run_dadadodo input_text self w in
    match result with
    | Ok result => (_extract_tweets result, w)
    | Raise e => (Raise e, w)
    end.

End Generation.

(* ===================================================================== *)
(** * Properties *)
(* ===================================================================== *)

(** The chunks of a wrap put together again, with the separator that
    the wrap took out after each chunk but the last. *)
Fixpoint rejoin (chunks seps : list str) : str :=
  match chunks, seps with
  | c :: cs, s :: ss => c ++ s ++ rejoin cs ss
  | c :: cs, [] => c ++ rejoin cs []
  | [], _ => []
  end.

(** ** Sample runs *)

Example wrap_goof_ball :
  TextWrap._split (Py.lit "Look, goof-ball -- use the -b option!")
  = map Py.lit ["Look,"; " "; "goof-"; "ball"; " "; "--"; " "; "use"; " ";
                "the"; " "; "-b"; " "; "option!"]%string.
Proof. vm_compute. reflexivity. Qed.

Example wrap_narrow :
  TextWrap.wrap (Py.lit "the well-known abcdefghijkl") 8
  = Ok (map Py.lit ["the"; "well-"; "known ab"; "cdefghij"; "kl"]%string).
Proof. vm_compute. reflexivity. Qed.

Example normalize_blanks :
  normalize ("009" :: Py.lit " a  b" ++ ["010"; "010"] ++ Py.lit "c ")%char
  = Py.lit "a b c".
Proof. vm_compute. reflexivity. Qed.

Example fix_rt_none : _fix_rt (Py.lit "nothing to see") = Py.lit "nothing to see".
Proof. vm_compute. reflexivity. Qed.

(** ** The sanitizer *)

(** C7.  The text "check http://example.com/x out" is sanitized to
    "check  out": encoding to ASCII and collapsing the whitespace leave it
    as it is, and deleting the link leaves the two spaces that were
    around it next to each other. *)
Theorem munge_strips_link :
  let t := Py.lit "check http://example.com/x out" in
  Py.encode_ascii_ignore t = t
  /\ Re.sub (Re.bytes_flags false) (Re.plus (Re.esc Re.Space)) (Py.lit " ") t = t
  /\ Re.sub (Re.bytes_flags true) link_re [] t = Py.lit "check  out"
  /\ munge t = Py.lit "check  out".
Proof. vm_compute. repeat split; reflexivity. Qed.

(** ** The retweet repair *)

(** C8.  The chunk "hello world RT @bob more text" is repaired to
    "RT @bob hello world more text". *)
Theorem fix_rt_moves_marker :
  _fix_rt (Py.lit "hello world RT @bob more text")
  = Py.lit "RT @bob hello world more text".
Proof. vm_compute. reflexivity. Qed.

(** C9.  The repair asks for no word boundary before the marker: in
    "start here" the letters "rt" only end the word "start", and the
    chunk is still rewritten, to "RT @here sta". *)
Theorem fix_rt_inside_word :
  _fix_rt (Py.lit "start here") = Py.lit "RT @here sta"
  /\ _fix_rt (Py.lit "start here") <> Py.lit "start here".
Proof. vm_compute. split; [reflexivity | discriminate]. Qed.

(** ** Loading *)

(** C10.  When the state file does not exist, [load_state] returns
    without raising and hands back the store as it was, whatever its
    state holds. *)
Theorem load_state_missing (self : DoadDoad) (w : World) :
  files w !! state_file self = None ->
  load_state self w = Ok self.
Proof. intros H. unfold load_state. rewrite H. reflexivity. Qed.

Definition sample_tweet (i : Z) (s : string) : Tweet :=
  {| status := {| id := i; text := Py.lit s |} |}.

Definition sample_store : DoadDoad :=
  {| dadadodo_cmd := ["/usr/bin/dadadodo"%string];
     dadadodo_opts := ["-c"; "1"; "-"]%string;
     state := <[7%Z := sample_tweet 7 "seven"]>
                (<[3%Z := sample_tweet 3 "three"]>
                   (<[5%Z := sample_tweet 5 "five"]> ∅));
     state_file := "doaddoad.state" |}.

Definition sample_world : World :=
  {| files := <["/usr/bin/dadadodo"%string := Other []]> ∅;
     run := fun _ input => input;
     launched := [];
     tape := [] |}.

Lemma load_state_missing_witness :
  files sample_world !! state_file sample_store = None
  /\ load_state sample_store sample_world = Ok sample_store.
Proof.
  split; [reflexivity | apply (load_state_missing sample_store sample_world)].
  reflexivity.
Defined.

(** ** Insertion *)

Lemma add_unseen_seen (self : DoadDoad) (tweet : Status) :
  id tweet ∈ dom (state self) -> add_unseen self tweet = self.
Proof. intros H. unfold add_unseen. rewrite bool_decide_eq_true_2; done. Qed.

Lemma add_unseen_new (self : DoadDoad) (tweet : Status) :
  id tweet ∉ dom (state self) ->
  add_unseen self tweet
  = set_state self (<[id tweet := {| status := tweet |}]> (state self)).
Proof. intros H. unfold add_unseen. rewrite bool_decide_eq_false_2; done. Qed.

Lemma add_unseen_keeps (self : DoadDoad) (tweet : Status) :
  state self ⊆ state (add_unseen self tweet).
Proof.
  destruct (decide (id tweet ∈ dom (state self))) as [Hin | Hout].
  - rewrite add_unseen_seen; done.
  - rewrite add_unseen_new by done. simpl.
    apply insert_subseteq, not_elem_of_dom, Hout.
Qed.

Lemma add_all_keeps (timeline : list Status) (self : DoadDoad) :
  state self ⊆ state (foldl add_unseen self timeline).
Proof.
  revert self. induction timeline as [| t timeline IH]; intros self; simpl.
  - done.
  - etrans; [apply (add_unseen_keeps self t) | apply IH].
Qed.

Lemma add_all_seen (timeline : list Status) (self : DoadDoad) :
  Forall (fun t => id t ∈ dom (state self)) timeline ->
  foldl add_unseen self timeline = self.
Proof.
  induction 1 as [| t timeline Ht _ IH]; simpl; [done |].
  rewrite add_unseen_seen; done.
Qed.

Lemma add_all_covers (timeline : list Status) (self : DoadDoad) :
  Forall (fun t => id t ∈ dom (state (foldl add_unseen self timeline)))
    timeline.
Proof.
  revert self. induction timeline as [| t timeline IH]; intros self; simpl.
  - constructor.
  - constructor; [| apply IH].
    eapply subseteq_dom; [apply add_all_keeps |].
    destruct (decide (id t ∈ dom (state self))) as [Hin | Hout].
    + rewrite add_unseen_seen; done.
    + rewrite add_unseen_new by done. simpl. set_solver.
Qed.

(** C5.  Insertion is idempotent with respect to the id.  A tweet whose
    id is a key of the state leaves the store as it is, and a tweet is
    stored only when its id is no key yet; so a timeline never changes
    what the state holds already, a timeline of seen tweets changes
    nothing, and adding a timeline a second time changes nothing. *)
Theorem add_timeline_idempotent (twitter : Api) (user : Z) (count : nat)
    (self : DoadDoad) (tweet : Status) :
  (id tweet ∈ dom (state self) -> add_unseen self tweet = self)
  /\ (add_unseen self tweet <> self -> id tweet ∉ dom (state self))
  /\ add_unseen (add_unseen self tweet) tweet = add_unseen self tweet
  /\ state self ⊆ state (add_timeline twitter user count self)
  /\ add_timeline twitter user count (add_timeline twitter user count self)
     = add_timeline twitter user count self.
Proof.
  split; [apply add_unseen_seen |].
  split; [intros Hne Hin; apply Hne, add_unseen_seen, Hin |].
  split.
  { apply add_unseen_seen.
    destruct (decide (id tweet ∈ dom (state self))) as [Hin | Hout].
    - rewrite add_unseen_seen; done.
    - rewrite add_unseen_new by done. simpl. set_solver. }
  unfold add_timeline.
  destruct (GetUserTimeline twitter user count) as [timeline | msg].
  - split; [apply add_all_keeps | apply add_all_seen, add_all_covers].
  - done.
Qed.

Definition sample_api : Api :=
  {| GetUserTimeline := fun user count =>
       Answered [ {| id := 7; text := Py.lit "seven again" |};
                  {| id := 9; text := Py.lit "nine" |} ] |}.

Lemma add_timeline_idempotent_witness :
  id {| id := 7; text := Py.lit "seven again" |} ∈ dom (state sample_store)
  /\ add_unseen sample_store {| id := 7; text := Py.lit "seven again" |}
     = sample_store.
Proof.
  assert (H : id {| id := 7; text := Py.lit "seven again" |}
               ∈ dom (state sample_store)) by (vm_compute; reflexivity).
  split; [exact H |].
  exact (proj1 (add_timeline_idempotent sample_api 1 20 sample_store
                  {| id := 7; text := Py.lit "seven again" |}) H).
Defined.

(** ** Trimming and saving *)

Section Trim.
Implicit Types (st : gmap Z Tweet) (keys : list Z).

Definition delete_all st keys : gmap Z Tweet :=
  foldl (fun st key => delete key st) st keys.

Lemma lookup_delete_all st keys k :
  delete_all st keys !! k = if decide (k ∈ keys) then None else st !! k.
Proof.
  revert st. induction keys as [| key keys IH]; intros st; simpl.
  - done.
  - unfold delete_all in *. simpl. rewrite IH.
    destruct (decide (k ∈ keys)) as [Hin | Hout].
    + rewrite decide_True by (by constructor). done.
    + destruct (decide (k = key)) as [-> | Hne].
      * rewrite decide_True by (by constructor). apply lookup_delete_eq.
      * rewrite decide_False by (by intros [? | ?]%elem_of_cons).
        by apply lookup_delete_ne.
Qed.

Lemma delete_all_subseteq st keys : delete_all st keys ⊆ st.
Proof.
  apply map_subseteq_spec. intros k v. rewrite lookup_delete_all.
  case_decide; done.
Qed.

Lemma size_delete_all st keys :
  NoDup keys -> (forall k, k ∈ keys -> k ∈ dom st) ->
  size (delete_all st keys) = size st - length keys.
Proof.
  intros Hnd. revert st.
  induction Hnd as [| key keys Hnotin Hnd IH]; intros st Hdom; simpl.
  - lia.
  - unfold delete_all in *. simpl. rewrite IH.
    + assert (Hk : is_Some (st !! key)) by (apply elem_of_dom, Hdom; set_solver).
      rewrite (map_size_delete_Some _ _ Hk).
      assert (size st <> 0).
      { apply map_size_non_empty_iff. intros ->. by destruct Hk. }
      lia.
    + intros k Hk. rewrite dom_delete_L.
      assert (k <> key) by (intros ->; done). set_solver.
Qed.

Lemma sorted_perm st : sorted st ≡ₚ (fst <$> map_to_list st).
Proof. apply merge_sort_Permutation. Qed.

Lemma elem_of_sorted st k : k ∈ sorted st <-> k ∈ dom st.
Proof.
  rewrite sorted_perm, elem_of_dom, list_elem_of_fmap. split.
  - intros [[k' v] [-> Hin]]. apply elem_of_map_to_list in Hin. eauto.
  - intros [v Hv]. exists (k, v). split; [done |].
    by apply elem_of_map_to_list.
Qed.

Lemma NoDup_sorted st : NoDup (sorted st).
Proof. rewrite sorted_perm. apply NoDup_fst_map_to_list. Qed.

Lemma length_sorted st : length (sorted st) = size st.
Proof.
  rewrite sorted_perm, length_fmap. apply length_map_to_list.
Qed.

Lemma sorted_increasing st : StronglySorted Z.le (sorted st).
Proof. apply (StronglySorted_merge_sort Z.le). Qed.

(** With a positive limit, [[:-limit]] is all but the last [limit]. *)
Lemma slice_to_neg {A} (l : list A) (limit : Z) :
  (0 < limit)%Z ->
  Py.slice_to l (- limit) = take (length l - Z.to_nat limit) l.
Proof.
  intros Hpos. unfold Py.slice_to.
  destruct (Z.ltb_spec (- limit) 0) as [_ | ?]; [| lia].
  f_equal. lia.
Qed.

End Trim.

(** C2.  With a positive limit, [save_state] leaves in the state as many
    entries as the limit allows, [min limit size] of them, each as it
    was, and every id that stays is larger than every id that goes; with
    the limit 0 the state is not touched. *)
Theorem save_state_trims (limit : Z) (self : DoadDoad) (w : World) :
  let self' := (save_state limit self w).1 in
  ((0 < limit)%Z ->
     size (state self') = Nat.min (Z.to_nat limit) (size (state self))
     /\ state self' ⊆ state self
     /\ forall kept gone,
          kept ∈ dom (state self') ->
          gone ∈ dom (state self) -> gone ∉ dom (state self') ->
          (gone < kept)%Z)
  /\ (limit = 0%Z -> state self' = state self).
Proof.
  simpl. unfold _trim_state. split.
  - intros Hpos. destruct (Z.eqb_spec limit 0) as [? | _]; [lia |].
    simpl. rewrite slice_to_neg by done. fold (delete_all (state self)).
    set (st := state self). set (n := length (sorted st) - Z.to_nat limit).
    assert (Hsplit : take n (sorted st) ++ drop n (sorted st) = sorted st)
      by apply take_drop.
    pose proof (NoDup_sorted st) as Hnd. rewrite <- Hsplit in Hnd.
    apply NoDup_app in Hnd as (Hnd1 & Hdisj & _).
    pose proof (sorted_increasing st) as Hinc. rewrite <- Hsplit in Hinc.
    split; [| split].
    + rewrite size_delete_all; [| done |].
      * rewrite length_take, length_sorted. subst n.
        rewrite length_sorted. lia.
      * intros k Hk. apply elem_of_sorted. rewrite <- Hsplit. set_solver.
    + apply delete_all_subseteq.
    + intros kept gone Hkept Hgone Hnot.
      apply elem_of_dom in Hkept as [v Hv].
      rewrite lookup_delete_all in Hv.
      destruct (decide (kept ∈ take n (sorted st))) as [? | Hk]; [done |].
      assert (Hg : gone ∈ take n (sorted st)).
      { destruct (decide (gone ∈ take n (sorted st))) as [? | Hg]; [done |].
        exfalso. apply Hnot, elem_of_dom. rewrite lookup_delete_all.
        rewrite decide_False by done. by apply elem_of_dom. }
      assert (Hk' : kept ∈ drop n (sorted st)).
      { assert (Hin : kept ∈ sorted st) by (apply elem_of_sorted, elem_of_dom; eauto).
        rewrite <- Hsplit in Hin. by apply elem_of_app in Hin as [? | ?]. }
      pose proof (StronglySorted_app_1_elem_of Z.le _ _ _ _ Hinc Hg Hk') as Hle.
      assert (gone <> kept) by (intros ->; by apply (Hdisj kept)).
      lia.
  - intros ->. done.
Qed.

Lemma save_state_trims_witness :
  (0 < 2)%Z
  /\ size (state (save_state 2 sample_store sample_world).1)
     = Nat.min (Z.to_nat 2) (size (state sample_store))
  /\ state (save_state 0 sample_store sample_world).1 = state sample_store.
Proof.
  split; [lia |]. split.
  - apply (proj1 (save_state_trims 2 sample_store sample_world)). lia.
  - apply (proj2 (save_state_trims 0 sample_store sample_world)). reflexivity.
Defined.

Example save_state_sample :
  dom (state (save_state 2 sample_store sample_world).1) = {[5%Z; 7%Z]}.
Proof. vm_compute. reflexivity. Qed.

(** ** Saving and loading again *)

Lemma state_file_trim (limit : Z) (self : DoadDoad) :
  state_file (_trim_state limit self) = state_file self.
Proof. unfold _trim_state. destruct (limit =? 0)%Z; reflexivity. Qed.

(** C4.  After [save_state], a fresh store on the same state file loads
    a state equal to the state that was saved, which is the state after
    trimming. *)
Theorem save_load_roundtrip (limit : Z) (self : DoadDoad) (w : World)
    (bin : string) (fresh : DoadDoad) :
  let self' := (save_state limit self w).1 in
  let w' := (save_state limit self w).2 in
  __init__ (state_file self) bin w' = Ok fresh ->
  state fresh = ∅
  /\ state self' = state (_trim_state limit self)
  /\ exists loaded,
       load_state fresh w' = Ok loaded /\ state loaded = state self'.
Proof.
  simpl. unfold __init__. simpl. rewrite state_file_trim.
  destruct (_ !! bin) as [f |]; [| discriminate].
  intros [= <-]. split; [done |]. split; [done |].
  unfold load_state. simpl. rewrite lookup_insert_eq. simpl.
  rewrite list_to_map_to_list. eexists. split; reflexivity.
Qed.

Lemma save_load_roundtrip_witness :
  __init__ (state_file sample_store) "/usr/bin/dadadodo"
    (save_state 2 sample_store sample_world).2
  = Ok (set_state sample_store ∅)
  /\ exists loaded,
       load_state (set_state sample_store ∅)
         (save_state 2 sample_store sample_world).2 = Ok loaded
       /\ state loaded = state (save_state 2 sample_store sample_world).1.
Proof.
  assert (H : __init__ (state_file sample_store) "/usr/bin/dadadodo"
                (save_state 2 sample_store sample_world).2
              = Ok (set_state sample_store ∅)) by reflexivity.
  split; [exact H |].
  exact (proj2 (proj2 (save_load_roundtrip 2 sample_store sample_world
                         "/usr/bin/dadadodo" (set_state sample_store ∅) H))).
Defined.

(** ** The language filter *)

Definition sample_tweets : TweetModule :=
  {| language_codes := ["en"; "it"]%string;
     get_language_code := fun _ => Some "en"%string |}.

(** C6, as the claim states it, fails for the empty filter.  The empty
    string is no language code, yet it passes for "no filter": generation
    goes on, dadadodo is launched on the whole corpus and its output is
    made into tweets. *)
Lemma generate_tweets_empty_filter :
  (EmptyString ∉ language_codes sample_tweets)
  /\ generate_tweets sample_tweets (Some EmptyString) sample_store sample_world
     = (Ok [Py.lit "five three seven"],
        {| files := files sample_world;
           run := run sample_world;
           launched := [(["/usr/bin/dadadodo"; "-c"; "1"; "-"]%string,
                         Py.lit "five three seven")];
           tape := [] |}).
Proof.
  split.
  - intros H. apply list_elem_of_In in H. simpl in H.
    destruct H as [H | [H | []]]; discriminate H.
  - vm_compute. reflexivity.
Qed.

(** C6, amended.  A filter that is not empty and is none of the
    detectable language codes makes [generate_tweets] raise
    [DoadDoadError] at once: the world comes back as it was, with no
    process launched and no random number drawn, and the store is only
    read. *)
Theorem generate_tweets_rejects (Tw : TweetModule) (language : string)
    (self : DoadDoad) (w : World) :
  language <> EmptyString ->
  language ∉ language_codes Tw ->
  generate_tweets Tw (Some language) self w
  = (Raise (DoadDoadError "language is not detectable"), w).
Proof.
  intros Hne Hout. unfold generate_tweets.
  destruct language as [| c l]; [done |]. simpl.
  rewrite bool_decide_eq_false_2 by done. reflexivity.
Qed.

Lemma generate_tweets_rejects_witness :
  "xx"%string <> EmptyString
  /\ ("xx"%string ∉ language_codes sample_tweets)
  /\ generate_tweets sample_tweets (Some "xx"%string) sample_store sample_world
     = (Raise (DoadDoadError "language is not detectable"), sample_world).
Proof.
  assert (H1 : "xx"%string <> EmptyString) by discriminate.
  assert (H2 : "xx"%string ∉ language_codes sample_tweets).
  { intros H. apply list_elem_of_In in H. simpl in H.
    destruct H as [H | [H | []]]; discriminate H. }
  split; [exact H1 |]. split; [exact H2 |].
  exact (generate_tweets_rejects sample_tweets "xx" sample_store sample_world
           H1 H2).
Defined.

(** ** The matcher *)

Module ReFacts.
Import Re.

(** A state is well formed when its position counts the characters
    before it; [reach st st'] says that [st'] is a later place of the
    same text. *)
Definition wf (st : mstate) : Prop := pos st = length (before st).

Definition reach (st st' : mstate) : Prop :=
  wf st'
  /\ rev (before st') ++ after st' = rev (before st) ++ after st
  /\ pos st <= pos st'.

(** What [exec] promises for a pattern: when it answers, it answers
    what the continuation answered at a later place of the text. *)
Definition sound
    (body : (mstate -> option mstate) -> mstate -> option mstate) : Prop :=
  forall k st m, wf st -> body k st = Some m ->
                 exists st', reach st st' /\ k st' = Some m.

Lemma reach_refl st : wf st -> reach st st.
Proof. intros H. split; [done | split; [done | lia]]. Qed.

Lemma reach_trans st1 st2 st3 : reach st1 st2 -> reach st2 st3 -> reach st1 st3.
Proof.
  intros (_ & H12 & Hle12) (Hwf & H23 & Hle23).
  split; [done | split; [congruence | lia]].
Qed.

Lemma reach_with_groups st st' g : reach st st' -> reach st (with_groups st' g).
Proof. intros (H1 & H2 & H3). split; [done | split; done]. Qed.

Lemma reach_advance st c rest :
  wf st -> after st = c :: rest -> reach st (advance c rest st).
Proof.
  intros Hwf Hafter. unfold reach, wf, advance in *. simpl.
  rewrite Hafter, <- app_assoc. simpl. split; [lia | split; [done | lia]].
Qed.

Lemma one_sound test : sound (one test).
Proof.
  intros k st m Hwf H. unfold one in H.
  destruct (after st) as [| c rest] eqn:Hafter; [done |].
  destruct (test c); [| done].
  eexists. split; [apply reach_advance; done | done].
Qed.

Lemma rep_loop_sound body min max greedy :
  sound body ->
  forall k fuel cnt st m,
    wf st -> rep_loop body min max greedy k fuel cnt st = Some m ->
    exists st', reach st st' /\ k st' = Some m.
Proof.
  intros Hbody k fuel.
  induction fuel as [| fuel IH]; intros cnt st m Hwf H; simpl in H.
  - destruct greedy; destruct (min <=? cnt); try done;
      exists st; (split; [by apply reach_refl |]); by destruct (k st).
  - assert (Hagain : forall m',
              (if below cnt max
               then body (fun st' => if pos st <? pos st'
                                     then rep_loop body min max greedy k fuel
                                            (S cnt) st'
                                     else None) st
               else None) = Some m' ->
              exists st', reach st st' /\ k st' = Some m').
    { intros m' Hm'. destruct (below cnt max); [| done].
      apply Hbody in Hm' as (st1 & Hreach & Hk); [| done].
      destruct (pos st <? pos st1); [| done].
      apply IH in Hk as (st2 & Hreach2 & Hk); [| apply Hreach].
      exists st2. split; [by eapply reach_trans | done]. }
    assert (Hstop : forall m',
              (if min <=? cnt then k st else None) = Some m' ->
              exists st', reach st st' /\ k st' = Some m').
    { intros m' Hm'. destruct (min <=? cnt); [| done].
      exists st. split; auto using reach_refl. }
    destruct greedy.
    + destruct (if below cnt max then _ else _) as [m' |] eqn:E.
      * injection H as ->. by apply Hagain.
      * by apply Hstop.
    + destruct (if min <=? cnt then _ else _) as [m' |] eqn:E.
      * injection H as ->. by apply Hstop.
      * by apply Hagain.
Qed.

Lemma exec_sound fl r : sound (exec fl r).
Proof.
  induction r as [| x | | negate items | r1 IH1 r2 IH2 | r1 IH1 r2 IH2
                  | min max greedy r IH | gid r IH | r IH | w r IH | | |];
    intros k st m Hwf H; simpl in H.
  - exists st. auto using reach_refl.
  - by eapply one_sound.
  - by eapply one_sound.
  - by eapply one_sound.
  - apply IH1 in H as (st1 & Hr1 & H); [| done].
    apply IH2 in H as (st2 & Hr2 & H); [| apply Hr1].
    exists st2. split; [by eapply reach_trans | done].
  - destruct (exec fl r1 k st) as [m' |] eqn:E.
    + injection H as ->. by apply IH1.
    + by apply IH2.
  - by eapply rep_loop_sound.
  - apply IH in H as (st1 & Hr1 & H); [| done].
    eexists. split; [apply reach_with_groups, Hr1 | done].
  - destruct (exec fl r Some st) as [st1 |]; [| done].
    eexists. split; [apply reach_with_groups, reach_refl; done | done].
  - destruct (w <=? pos st); [| done].
    destruct (exec fl r _ (rewind w st)) as [st1 |]; [| done].
    eexists. split; [apply reach_with_groups, reach_refl; done | done].
  - destruct (pos st =? 0); [| done]. exists st. auto using reach_refl.
  - destruct (after st) as [| c [| c' rest]]; try done.
    + exists st. auto using reach_refl.
    + destruct (Py.eqc c "010"); [| done]. exists st. auto using reach_refl.
  - destruct (after st); [| done]. exists st. auto using reach_refl.
Qed.

(** A later place of the text splits what was left at the earlier one. *)
Lemma reach_split st st' :
  wf st -> reach st st' ->
  after st = take (pos st' - pos st) (after st) ++ after st'
  /\ pos st' - pos st <= length (after st).
Proof.
  intros Hwf (Hwf' & Htext & Hle). unfold wf in *.
  assert (Hlen : length (before st') + length (after st')
                 = length (before st) + length (after st)).
  { apply (f_equal length) in Htext. rewrite !length_app, !length_rev in Htext.
    done. }
  apply (f_equal (drop (length (before st)))) in Htext.
  rewrite (drop_app_length' (rev (before st))) in Htext
    by (by rewrite length_rev).
  rewrite drop_app_le in Htext by (rewrite length_rev; lia).
  rewrite <- Htext. split.
  - rewrite take_app_length'; [done |].
    rewrite length_drop, length_rev. lia.
  - rewrite length_app, length_drop, length_rev. lia.
Qed.

End ReFacts.

(** ** Scanning a text for matches *)

Module ScanFacts.
Import Re ReFacts.

(** [f] reads off a match the text it covers. *)
Definition spans (fl : flags) (r : regex) (f : mstate -> str) : Prop :=
  forall st k m,
    wf st -> (forall x y, k x = Some y -> y = x) ->
    exec fl r k st = Some m ->
    f m = take (pos m - pos st) (after st)
    /\ pos m - pos st <= length (after st).

Definition cover (f : mstate -> str) (pc : piece) : str :=
  match pc with
  | Gap s => s
  | Hit m => f m
  end.

(** The gaps and the matches of a scan, put together in order, are the
    text that was scanned: nothing is lost and nothing comes twice. *)
Lemma scan_cover fl r f :
  spans fl r f ->
  forall rest bef p skip gap,
    p = length bef -> skip <= length rest ->
    flat_map (cover f) (scan fl r bef p rest skip gap)
    = rev gap ++ drop skip rest.
Proof.
  intros Hspans.
  assert (Hadv : forall p x y,
             (fun m' : mstate => if p <? pos m' then Some m' else None) x
             = Some y -> y = x).
  { intros p x y H. simpl in H. destruct (p <? pos x); congruence. }
  induction rest as [| c rest IH]; intros bef p skip gap Hp Hskip.
  - destruct skip; [| simpl in Hskip; lia]. simpl.
    set (st := {| pos := p; before := bef; after := []; groups := [] |}).
    assert (Hwf : wf st) by done.
    destruct (exec fl r Some st) as [m |] eqn:E.
    + apply Hspans in E as [Hf Hlen]; [| done | congruence].
      simpl in Hf, Hlen.
      assert (Hd : pos m - p = 0) by lia. rewrite Hd. simpl.
      rewrite Hf, Hd. simpl.
      destruct (exec fl r _ st) as [m' |] eqn:E'.
      * apply Hspans in E' as [Hf' Hlen']; [| done | apply Hadv].
        simpl in Hf', Hlen'. simpl. rewrite Hf'.
        rewrite take_nil. simpl. by rewrite app_nil_r.
      * simpl. by rewrite app_nil_r.
    + simpl. by rewrite !app_nil_r.
  - destruct skip as [| n].
    + simpl.
      set (st := {| pos := p; before := bef; after := c :: rest;
                    groups := [] |}).
      assert (Hwf : wf st) by done.
      assert (Hnext : S p = length (c :: bef)) by (simpl; lia).
      destruct (exec fl r Some st) as [m |] eqn:E.
      * apply Hspans in E as [Hf Hlen]; [| done | congruence].
        simpl in Hf, Hlen. simpl.
        destruct (pos m - p) as [| n] eqn:Hd.
        -- rewrite Hf. simpl.
           destruct (exec fl r _ st) as [m' |] eqn:E'.
           ++ apply Hspans in E' as [Hf' Hlen']; [| done | apply Hadv].
              simpl in Hf', Hlen'. simpl. rewrite Hf'.
              destruct (pos m' - p) as [| n'] eqn:Hd'.
              ** simpl. rewrite IH by (done || lia). done.
              ** rewrite IH by (done || lia). simpl.
                 by rewrite take_drop.
           ++ rewrite IH by (done || lia). done.
        -- rewrite Hf, IH by (done || lia). simpl. by rewrite take_drop.
      * rewrite IH by (done || lia). simpl. by rewrite <- app_assoc.
    + simpl. apply IH; [simpl; lia | simpl in Hskip; lia].
Qed.

Lemma finditer_cover fl r f text :
  spans fl r f -> flat_map (cover f) (finditer fl r text) = text.
Proof.
  intros H. unfold finditer. rewrite (scan_cover fl r f H); [done | done |].
  lia.
Qed.

(** A pattern that is one group: the group holds the text matched. *)
Lemma spans_group fl gid r :
  spans fl (Grp gid r) (fun m => default [] (group m gid)).
Proof.
  intros st k m Hwf Hk H. simpl in H.
  apply exec_sound in H as (st' & Hreach & H); [| done].
  apply Hk in H as ->.
  apply reach_split in Hreach as [_ Hlen]; [| done].
  unfold group. simpl.
  assert (Heq : group_id_eqb gid gid = true).
  { destruct gid; simpl; [apply Nat.eqb_refl | apply String.eqb_refl]. }
  rewrite Heq. done.
Qed.

End ScanFacts.

(** ** Whitespace: [strip], and the pattern [\s+] *)

Module SpaceFacts.
Import Re ReFacts ScanFacts.

(** The number of characters at the head of [l] that pass [test]. *)
Fixpoint run (test : ascii -> bool) (l : str) : nat :=
  match l with
  | c :: l' => if test c then S (run test l') else 0
  | [] => 0
  end.

(** [n] steps forward. *)
Fixpoint forward (n : nat) (st : mstate) : mstate :=
  match n, after st with
  | S n', c :: rest => forward n' (advance c rest st)
  | _, _ => st
  end.

Lemma pos_forward n st :
  n <= length (after st) -> pos (forward n st) = pos st + n.
Proof.
  revert st. induction n as [| n IH]; intros st Hn; simpl; [lia |].
  destruct (after st) as [| c rest] eqn:E; simpl in Hn; [lia |].
  rewrite IH; simpl; lia.
Qed.

Lemma run_le test l : run test l <= length l.
Proof. induction l as [| c l IH]; simpl; [lia |]. destruct (test c); lia. Qed.

(** A greedy repeat of a one-character test, followed by nothing,
    takes the whole run of characters that pass the test. *)
Lemma rep_one_greedy test min fuel cnt st :
  length (after st) <= fuel ->
  rep_loop (one test) min None true Some fuel cnt st
  = if min <=? cnt + run test (after st)
    then Some (forward (run test (after st)) st)
    else None.
Proof.
  revert cnt st. induction fuel as [| fuel IH]; intros cnt st Hfuel.
  - destruct (after st) as [| c rest] eqn:E; [| simpl in Hfuel; lia].
    simpl. rewrite Nat.add_0_r. by destruct (min <=? cnt).
  - simpl. unfold one at 1.
    destruct (after st) as [| c rest] eqn:E.
    + simpl. rewrite Nat.add_0_r. by destruct (min <=? cnt).
    + simpl. destruct (test c) eqn:Ht.
      * assert (Hlt : (pos st <? S (pos st)) = true)
          by (apply Nat.ltb_lt; lia).
        rewrite Hlt, IH by (simpl in *; lia).
        simpl. rewrite E. replace (cnt + S (run test rest))
          with (S (cnt + run test rest)) by lia.
        destruct (min <=? S (cnt + run test rest)) eqn:Hmin; [done |].
        apply Nat.leb_gt in Hmin.
        destruct (Nat.leb_spec min cnt); [lia | done].
      * rewrite Nat.add_0_r. by destruct (min <=? cnt).
Qed.

Lemma run_ext test1 test2 l :
  (forall c, test1 c = test2 c) -> run test1 l = run test2 l.
Proof.
  intros H. induction l as [| c l IH]; simpl; [done |].
  rewrite H, IH. done.
Qed.

Definition blanks : regex := plus (esc Space).

Lemma exec_blanks st :
  exec str_flags blanks Some st
  = if 1 <=? run Py.isspace (after st)
    then Some (forward (run Py.isspace (after st)) st)
    else None.
Proof.
  unfold blanks, plus, esc. simpl.
  rewrite rep_one_greedy by done.
  rewrite (run_ext _ Py.isspace); [done |].
  intros c. unfold set_match. simpl. by rewrite orb_false_r.
Qed.

(** What [re.sub("\s+", " ", text)] makes of a text: each run of
    whitespace becomes one space.  [prev] tells that the character
    before was whitespace. *)
Fixpoint squeeze (prev : bool) (l : str) : str :=
  match l with
  | [] => []
  | c :: l' =>
      if Py.isspace c
      then if prev then squeeze true l' else " "%char :: squeeze true l'
      else c :: squeeze false l'
  end.

Lemma squeeze_run_0 prev l :
  run Py.isspace l = 0 -> squeeze prev l = squeeze false l.
Proof.
  destruct l as [| c l]; simpl; [done |].
  destruct (Py.isspace c); [lia | done].
Qed.

Definition sub_out (pieces : list piece) : str :=
  flat_map (fun pc => match pc with Gap s => s | Hit _ => [" "%char] end)
    pieces.

Lemma scan_blanks rest :
  forall bef p skip gap,
    skip = 0 \/ run Py.isspace rest = skip ->
    sub_out (scan str_flags blanks bef p rest skip gap)
    = rev gap ++ squeeze (negb (skip =? 0)) rest.
Proof.
  induction rest as [| c rest IH]; intros bef p skip gap Hskip.
  - assert (skip = 0) as -> by (simpl in Hskip; lia).
    cbn [scan]. rewrite exec_blanks. simpl. by rewrite app_nil_r.
  - destruct skip as [| n].
    + cbn [scan]. rewrite exec_blanks. cbn [after run].
      destruct (Py.isspace c) eqn:Hc.
      * cbn [Nat.leb]. rewrite pos_forward by (simpl; apply le_n_S, run_le).
        cbn [pos]. replace (p + S (run Py.isspace rest) - p)
          with (S (run Py.isspace rest)) by lia.
        cbn [sub_out flat_map]. fold (sub_out).
        change (flat_map _ ?x) with (sub_out x).
        rewrite IH by (right; done).
        simpl. rewrite Hc. f_equal. f_equal.
        destruct (run Py.isspace rest) eqn:Hr; simpl; [| done].
        by rewrite (squeeze_run_0 true).
      * cbn [Nat.leb]. rewrite IH by (left; done).
        simpl. rewrite Hc, <- app_assoc. done.
    + cbn [scan]. destruct Hskip as [? | Hrun]; [done |].
      simpl in Hrun. destruct (Py.isspace c) eqn:Hc; [| done].
      rewrite IH by (right; lia). simpl. rewrite Hc. f_equal.
      destruct n; simpl; [| done].
      rewrite (squeeze_run_0 true); [done | lia].
Qed.

Lemma sub_blanks text :
  sub str_flags blanks [" "%char] text = squeeze false text.
Proof.
  unfold sub, finditer. change (flat_map _ ?x) with (sub_out x).
  rewrite scan_blanks by (left; done). done.
Qed.

End SpaceFacts.

(** ** Normalized text *)

Module NormalFacts.
Import SpaceFacts.

Definition all_blank (s : str) : Prop := Forall (fun c => Py.isspace c = true) s.

(** No two whitespace characters in a row; [prev] tells that the
    character before was whitespace. *)
Fixpoint spaced (prev : bool) (l : str) : bool :=
  match l with
  | [] => true
  | c :: l' =>
      if Py.isspace c then negb prev && spaced true l' else spaced false l'
  end.

(** What the first two statements of [_extract_tweets] achieve: the
    only whitespace left is the space, no two spaces are in a row, and
    the text neither starts nor ends with one. *)
Record tidy (t : str) : Prop := {
  tidy_space : Forall (fun c => Py.isspace c = true -> c = " "%char) t;
  tidy_spaced : spaced false t = true;
  tidy_head : forall c, head t = Some c -> Py.isspace c = false;
  tidy_last : forall c, last t = Some c -> Py.isspace c = false
}.

Lemma lstrip_nil s : Py.lstrip s = [] <-> all_blank s.
Proof.
  induction s as [| c s IH]; simpl.
  - split; [constructor | done].
  - destruct (Py.isspace c) eqn:Hc.
    + rewrite IH. split; [by constructor | by inversion 1].
    + split; [done | inversion 1; congruence].
Qed.

Lemma lstrip_head s c : head (Py.lstrip s) = Some c -> Py.isspace c = false.
Proof.
  induction s as [| x s IH]; simpl; [done |].
  destruct (Py.isspace x) eqn:Hx; [done |]. simpl. congruence.
Qed.

Lemma lstrip_last s c :
  last s = Some c -> Py.isspace c = false -> last (Py.lstrip s) = Some c.
Proof.
  intros Hlast Hc. induction s as [| x s IH]; simpl; [done |].
  destruct (Py.isspace x) eqn:Hx; [| done].
  apply IH. destruct s as [| y s]; [| done].
  simpl in Hlast. congruence.
Qed.

Lemma head_rev {A} (l : list A) : head (rev l) = last l.
Proof.
  induction l as [| x l IH] using rev_ind; [done |].
  rewrite rev_unit, last_snoc. done.
Qed.

Lemma last_rev {A} (l : list A) : last (rev l) = head l.
Proof. rewrite <- head_rev, rev_involutive. done. Qed.

Lemma all_blank_rev s : all_blank (rev s) <-> all_blank s.
Proof.
  unfold all_blank. split; intros H.
  - rewrite <- (rev_involutive s). by apply Forall_rev.
  - by apply Forall_rev.
Qed.

Lemma strip_nil s : Py.strip s = [] <-> all_blank s.
Proof.
  unfold Py.strip, Py.rstrip. split.
  - intros H. apply (f_equal (@rev ascii)) in H.
    rewrite rev_involutive in H. simpl in H.
    apply lstrip_nil in H. apply (proj1 (all_blank_rev _)) in H.
    destruct (Py.lstrip s) as [| c s'] eqn:E.
    + by apply lstrip_nil.
    + assert (Hc : Py.isspace c = false) by (apply (lstrip_head s); by rewrite E).
      inversion H; congruence.
  - intros H. apply lstrip_nil in H. rewrite H. done.
Qed.

Lemma blank_spec c : TextWrap.blank c = true <-> all_blank c.
Proof.
  rewrite <- strip_nil. unfold TextWrap.blank.
  destruct (Py.strip c); split; done.
Qed.

Lemma strip_head s c : head (Py.strip s) = Some c -> Py.isspace c = false.
Proof.
  unfold Py.strip, Py.rstrip. rewrite head_rev. intros H.
  destruct (head (Py.lstrip s)) as [x |] eqn:E.
  - assert (Hx : Py.isspace x = false) by (by apply (lstrip_head s)).
    rewrite (lstrip_last _ x) in H; [congruence | by rewrite last_rev | done].
  - destruct (Py.lstrip s); [done | done].
Qed.

Lemma strip_last s c : last (Py.strip s) = Some c -> Py.isspace c = false.
Proof.
  unfold Py.strip, Py.rstrip. rewrite last_rev. apply lstrip_head.
Qed.

Lemma squeeze_space prev l :
  Forall (fun c => Py.isspace c = true -> c = " "%char) (squeeze prev l).
Proof.
  revert prev. induction l as [| c l IH]; intros prev; simpl; [constructor |].
  destruct (Py.isspace c) eqn:Hc.
  - destruct prev; [apply IH |]. constructor; [done | apply IH].
  - constructor; [congruence | apply IH].
Qed.

Lemma squeeze_spaced prev l : spaced prev (squeeze prev l) = true.
Proof.
  revert prev. induction l as [| c l IH]; intros prev; simpl; [done |].
  destruct (Py.isspace c) eqn:Hc.
  - destruct prev; [apply IH |]. simpl. apply IH.
  - simpl. rewrite Hc. apply IH.
Qed.

Lemma squeeze_head l c :
  (forall x, head l = Some x -> Py.isspace x = false) ->
  head (squeeze false l) = Some c -> Py.isspace c = false.
Proof.
  intros Hl. destruct l as [| x l]; simpl; [done |].
  rewrite (Hl x) by done. simpl. intros [= <-]. by apply Hl.
Qed.

Lemma squeeze_last prev l c :
  last l = Some c -> Py.isspace c = false ->
  last (squeeze prev l) = Some c.
Proof.
  intros Hlast Hc. revert prev.
  induction l as [| x l IH]; intros prev; [done |].
  rewrite last_cons in Hlast.
  destruct (last l) as [y |] eqn:E.
  - injection Hlast as ->. specialize (IH eq_refl). simpl.
    destruct (Py.isspace x); [destruct prev |].
    + apply IH.
    + by rewrite last_cons, IH.
    + by rewrite last_cons, IH.
  - injection Hlast as ->. apply last_None in E as ->.
    simpl. by rewrite Hc.
Qed.

Lemma squeeze_tidy l :
  (forall x, head l = Some x -> Py.isspace x = false) ->
  (forall x, last l = Some x -> Py.isspace x = false) ->
  tidy (squeeze false l).
Proof.
  intros Hhead Hlast. split.
  - apply squeeze_space.
  - apply squeeze_spaced.
  - intros c. by apply squeeze_head.
  - intros c Hc. destruct (last l) as [x |] eqn:E.
    + rewrite (squeeze_last false l x) in Hc by auto.
      injection Hc as <-. auto.
    + apply last_None in E as ->. done.
Qed.

Lemma normalize_tidy text : tidy (normalize text).
Proof.
  unfold normalize.
  change (Re.plus (Re.esc Re.Space)) with blanks.
  change (Py.lit " ") with [" "%char]. rewrite sub_blanks.
  apply squeeze_tidy; intros c; [apply strip_head | apply strip_last].
Qed.

End NormalFacts.

(** ** The wrap: chunks *)

Module ChunkFacts.
Import Re ReFacts ScanFacts SpaceFacts NormalFacts.

Lemma eqc_eq a b : Py.eqc a b = true <-> a = b.
Proof. apply Ascii.eqb_eq. Qed.

Lemma whitespace_isspace c :
  existsb (Py.eqc c) TextWrap._whitespace = true -> Py.isspace c = true.
Proof.
  intros H. apply existsb_exists in H as (x & Hin & Heq).
  apply eqc_eq in Heq as ->. simpl in Hin.
  repeat (destruct Hin as [<- | Hin]; [reflexivity |]). done.
Qed.

Lemma expandtabs_spaces t col :
  Forall (fun c => Py.isspace c = true -> c = " "%char) t ->
  Py.expandtabs_from 8 col t = t.
Proof.
  intros H. revert col.
  induction H as [| c l Hc _ IH]; intros col; simpl; [done |].
  destruct (Py.eqc c "009") eqn:E.
  - apply eqc_eq in E as ->. discriminate (Hc eq_refl).
  - destruct (Py.eqc c "010" || Py.eqc c "013"); by rewrite IH.
Qed.

Lemma translate_spaces t :
  Forall (fun c => Py.isspace c = true -> c = " "%char) t ->
  TextWrap.translate t = t.
Proof.
  unfold TextWrap.translate.
  induction 1 as [| c l Hc _ IH]; cbn [map]; [done |].
  f_equal; [| exact IH].
  destruct (existsb _ _) eqn:E; [| done].
  apply whitespace_isspace in E. by rewrite Hc.
Qed.

(** On a text whose only whitespace is the space, nothing is left to
    expand or to replace. *)
Lemma munge_spaces t :
  Forall (fun c => Py.isspace c = true -> c = " "%char) t ->
  TextWrap._munge_whitespace t = t.
Proof.
  intros H. unfold TextWrap._munge_whitespace, Py.expandtabs.
  rewrite expandtabs_spaces by done. by apply translate_spaces.
Qed.

Lemma truthy_cover (pieces : list piece) :
  concat (omap TextWrap.truthy
            (flat_map (fun pc => match pc with
                                 | Gap s => [Some s]
                                 | Hit m => map (group m) [GNum 1]
                                 end) pieces))
  = flat_map (cover (fun m => default [] (group m (GNum 1)))) pieces.
Proof.
  induction pieces as [| pc pieces IH]; [done |].
  cbn [flat_map]. rewrite omap_app, concat_app, IH. f_equal.
  destruct pc as [s | m]; simpl.
  - destruct s; simpl; by rewrite ?app_nil_r.
  - destruct (group m (GNum 1)) as [[| c s] |]; simpl; by rewrite ?app_nil_r.
Qed.

(** The chunks of a text, put together, are the text. *)
Lemma split_concat t : concat (TextWrap._split t) = t.
Proof.
  unfold TextWrap._split, split. rewrite truthy_cover.
  apply finditer_cover, spans_group.
Qed.

Lemma split_tidy t :
  Forall (fun c => Py.isspace c = true -> c = " "%char) t ->
  concat (TextWrap._split_chunks t) = t.
Proof.
  intros H. unfold TextWrap._split_chunks.
  rewrite munge_spaces by done. apply split_concat.
Qed.

End ChunkFacts.

(** ** The wrap: lines *)

Module WrapFacts.
Import NormalFacts ChunkFacts TextWrap.

Lemma rfind_from_bound c s :
  forall i stop found h,
    Py.rfind_from c s i stop found = Some h ->
    found = Some h \/ (i <= h /\ h < stop).
Proof.
  induction s as [| x s IH]; intros i stop found h H; simpl in H; [by left |].
  destruct (Nat.ltb_spec i stop) as [Hlt | Hge]; [| by left].
  apply IH in H as [H | [H1 H2]]; [| right; lia].
  destruct (Py.eqc x c); [| by left].
  injection H as <-. right. lia.
Qed.

Lemma rfind_bound s c stop h : Py.rfind s c stop = Some h -> h < stop.
Proof.
  intros H. apply rfind_from_bound in H as [H | [_ H]]; [done | done].
Qed.

Lemma weight_cons c cs : weight (c :: cs) = S (length c) + weight cs.
Proof. reflexivity. Qed.

Lemma weight_app cs1 cs2 : weight (cs1 ++ cs2) = weight cs1 + weight cs2.
Proof.
  induction cs1 as [| c cs1 IH]; [done |].
  rewrite <- app_comm_cons, !weight_cons, IH. lia.
Qed.

(** The inner loop takes chunks off the front while the line has room
    for them. *)
Lemma fill_spec width chunks :
  forall cur_line cur_len,
  exists taken rest,
    fill width chunks cur_line cur_len
    = (cur_line ++ taken, cur_len + length (concat taken), rest)
    /\ chunks = taken ++ rest
    /\ (cur_len <= width -> cur_len + length (concat taken) <= width)
    /\ (forall c rest', rest = c :: rest' ->
          width < cur_len + length (concat taken) + length c).
Proof.
  induction chunks as [| c cs IH]; intros cur_line cur_len.
  - exists [], []. simpl. rewrite app_nil_r, Nat.add_0_r.
    split; [done |]. split; [done |]. split; [lia | done].
  - simpl. destruct (Nat.leb_spec (cur_len + length c) width) as [Hfit | Hno].
    + destruct (IH (cur_line ++ [c]) (cur_len + length c))
        as (taken & rest & Hfill & Hsplit & Hlen & Hnext).
      exists (c :: taken), rest. rewrite Hfill, <- app_assoc. simpl.
      rewrite length_app.
      split; [f_equal; f_equal; lia |]. split; [by f_equal |].
      split; [lia |]. intros c' rest' Hr. specialize (Hnext c' rest' Hr). lia.
    + exists [], (c :: cs). simpl. rewrite app_nil_r, Nat.add_0_r.
      split; [done |]. split; [done |]. split; [lia |].
      intros c' rest' [= <- <-]. lia.
Qed.

(** A word that is too long is cut where the line ends, or after a
    hyphen before that. *)
Lemma handle_long_word_spec chunk rest cur_line cur_len width :
  1 <= width -> cur_len <= width ->
  exists stop,
    _handle_long_word (chunk :: rest) cur_line cur_len width
    = (drop stop chunk :: rest, cur_line ++ [take stop chunk])
    /\ stop <= width - cur_len
    /\ (cur_len = 0 -> 1 <= stop).
Proof.
  intros Hw Hlen. unfold _handle_long_word.
  destruct (Nat.ltb_spec width 1) as [? | _]; [lia |].
  set (space_left := width - cur_len).
  assert (Hdefault : space_left <= width - cur_len
                     /\ (cur_len = 0 -> 1 <= space_left))
    by (subst space_left; lia).
  destruct (space_left <? length chunk); [| by exists space_left].
  destruct (Py.rfind chunk "-" space_left) as [hyphen |] eqn:E;
    [| by exists space_left].
  destruct (_ && _); [| by exists space_left].
  apply rfind_bound in E. exists (hyphen + 1).
  split; [done |]. subst space_left. lia.
Qed.

Lemma drop_last_spec cur_line :
  exists d, all_blank d /\ concat cur_line = concat (drop_last cur_line) ++ d.
Proof.
  unfold drop_last.
  destruct cur_line as [| x l _] using rev_ind.
  - exists []. split; [constructor | done].
  - rewrite last_snoc. destruct (blank x) eqn:Hb.
    + exists x. split; [by apply blank_spec |].
      rewrite removelast_last, concat_app. simpl. by rewrite app_nil_r.
    + exists []. split; [constructor | by rewrite app_nil_r].
Qed.

(** One round of the loop: of the chunks, a blank may go, then comes
    the line, then a blank may go again, and the rest is left for the
    next rounds.  The line fits the width, and the rest weighs less. *)
Lemma wrap_line_spec width c cs lines :
  1 <= width ->
  exists d1 line d2 chunks' lines',
    wrap_line width (c :: cs) lines = (chunks', lines')
    /\ all_blank d1 /\ all_blank d2
    /\ concat (c :: cs) = d1 ++ line ++ d2 ++ concat chunks'
    /\ length line <= width
    /\ (lines' = lines ++ [line] \/ (lines' = lines /\ line = []))
    /\ weight chunks' < weight (c :: cs).
Proof.
  intros Hw. unfold wrap_line.
  set (chunks0 := drop_first (c :: cs) lines).
  assert (H0 : exists d1,
             all_blank d1 /\ concat (c :: cs) = d1 ++ concat chunks0
             /\ (chunks0 = c :: cs \/ weight chunks0 < weight (c :: cs))).
  { subst chunks0. unfold drop_first.
    destruct (blank c) eqn:Hb; simpl;
      [destruct (bool_decide (lines = [])); simpl |].
    - exists []. split; [constructor |]. split; [done | by left].
    - exists c. split; [by apply blank_spec |]. split; [done |].
      right. rewrite weight_cons. lia.
    - exists []. split; [constructor |]. split; [done | by left]. }
  destruct H0 as (d1 & Hd1 & Hcat0 & Hw0).
  destruct (fill_spec width chunks0 [] 0)
    as (taken & rest1 & Hfill & Hsplit & Hlen & Hnofit).
  rewrite Hfill. simpl app. rewrite Nat.add_0_l in *.
  specialize (Hlen (Nat.le_0_l _)).
  assert (H1 : exists chunks2 cur_line2,
             break_long width rest1 taken (length (concat taken))
             = (chunks2, cur_line2)
             /\ concat taken ++ concat rest1
                = concat cur_line2 ++ concat chunks2
             /\ length (concat cur_line2) <= width
             /\ weight chunks2 <= weight rest1
             /\ (taken = [] -> rest1 <> [] -> weight chunks2 < weight rest1)).
  { unfold break_long. destruct rest1 as [| c1 rest'].
    - exists [], taken. repeat (split; [done |]). done.
    - destruct (Nat.ltb_spec width (length c1)) as [Hlong | Hshort].
      + destruct (handle_long_word_spec c1 rest' taken
                    (length (concat taken)) width Hw Hlen)
          as (stop & Hh & Hstop & Hpos).
        exists (drop stop c1 :: rest'), (taken ++ [take stop c1]).
        split; [done |]. split; [| split; [| split]].
        * rewrite concat_app. simpl. rewrite app_nil_r, <- app_assoc.
          f_equal. rewrite app_assoc, take_drop. done.
        * rewrite concat_app, length_app. simpl.
          rewrite app_nil_r, length_take. lia.
        * rewrite !weight_cons, length_drop. lia.
        * intros -> _. specialize (Hpos eq_refl).
          rewrite !weight_cons, length_drop. simpl in Hstop. lia.
      + exists (c1 :: rest'), taken. split; [done |]. split; [done |].
        split; [done |]. split; [done |].
        intros -> _. specialize (Hnofit c1 rest' eq_refl). simpl in Hnofit.
        lia. }
  destruct H1 as (chunks2 & cur_line2 & Hbreak & Hcat2 & Hlen2 & Hw2 & Hw2').
  rewrite Hbreak.
  destruct (drop_last_spec cur_line2) as (d2 & Hd2 & Hcat3).
  assert (Hweight : weight chunks2 < weight (c :: cs)).
  { assert (Hws : weight chunks0 = weight taken + weight rest1)
      by (rewrite Hsplit; apply weight_app).
    destruct Hw0 as [Heq | Hlt]; [| lia].
    rewrite <- Heq. destruct taken as [| t0 taken'].
    - simpl in Hsplit. subst rest1.
      assert (weight chunks2 < weight chunks0); [| lia].
      apply Hw2'; [done |]. by rewrite Heq.
    - rewrite weight_cons in Hws. lia. }
  assert (Hcat : concat (c :: cs)
                 = d1 ++ concat (drop_last cur_line2) ++ d2 ++ concat chunks2).
  { rewrite Hcat0, Hsplit, concat_app, Hcat2, Hcat3, <- !app_assoc. done. }
  assert (Hfits : length (concat (drop_last cur_line2)) <= width).
  { rewrite Hcat3, length_app in Hlen2. lia. }
  exists d1, (concat (drop_last cur_line2)), d2, chunks2.
  destruct (drop_last cur_line2) as [| x l] eqn:E.
  - exists lines. repeat (split; [done |]). split; [by right | done].
  - exists (lines ++ [concat (x :: l)]).
    repeat (split; [done |]). split; [by left | done].
Qed.

(** A line with the blank that the wrap dropped after it. *)
Definition unsegs (segs : list (str * str)) : str :=
  flat_map (fun sg => sg.1 ++ sg.2) segs.

(** The loop turns the chunks into lines that fit the width; between
    the lines, before the first and after the last, only blanks go
    missing.  The fuel that [_wrap_chunks] gives is enough. *)
Lemma wrap_loop_cover width :
  1 <= width ->
  forall fuel chunks lines,
    weight chunks <= fuel ->
    exists pre segs,
      wrap_loop fuel width chunks lines = lines ++ map fst segs
      /\ all_blank pre
      /\ Forall (fun sg => all_blank sg.2 /\ length sg.1 <= width) segs
      /\ concat chunks = pre ++ unsegs segs.
Proof.
  intros Hw. induction fuel as [| fuel IH]; intros chunks lines Hfuel.
  - destruct chunks as [| c cs]; [| rewrite weight_cons in Hfuel; lia].
    exists [], []. simpl. rewrite app_nil_r.
    split; [done |]. split; [constructor |]. split; [constructor | done].
  - destruct chunks as [| c cs].
    + exists [], []. simpl. rewrite app_nil_r.
      split; [done |]. split; [constructor |]. split; [constructor | done].
    + destruct (wrap_line_spec width c cs lines Hw)
        as (d1 & line & d2 & chunks' & lines' & Hline & Hd1 & Hd2 & Hcat
            & Hfit & Hlines & Hweight).
      cbn [wrap_loop]. rewrite Hline.
      destruct (IH chunks' lines') as (pre' & segs' & Hloop & Hpre' & Hsegs' & Hcat');
        [lia |].
      rewrite Hloop, Hcat, Hcat'.
      destruct Hlines as [-> | [-> ->]].
      * exists d1, ((line, d2 ++ pre') :: segs').
        split; [by rewrite <- app_assoc |]. split; [done |].
        split; [constructor; [split; [by apply Forall_app | done] | done] |].
        unfold unsegs. simpl. by rewrite <- !app_assoc.
      * exists (d1 ++ d2 ++ pre'), segs'.
        split; [done |].
        split; [apply Forall_app; split; [done | by apply Forall_app] |].
        split; [done |]. simpl. by rewrite <- !app_assoc.
Qed.

(** In a tidy text a stretch of blanks is at most one space, and
    there is none at either end. *)
Lemma spaced_gap prev x g y :
  spaced prev (x ++ g ++ y) = true -> all_blank g -> length g <= 1.
Proof.
  revert prev. induction x as [| c x IH]; intros prev H Hg.
  - simpl in H. destruct Hg as [| a g Ha Hg]; [simpl; lia |].
    destruct Hg as [| b g Hb Hg]; [simpl; lia |].
    simpl in H. rewrite Ha, Hb in H. simpl in H.
    by rewrite andb_false_r in H.
  - simpl in H. destruct (Py.isspace c).
    + apply andb_true_iff in H as [_ H]. by eapply IH.
    + by eapply IH.
Qed.

Lemma tidy_gap t x g y :
  tidy t -> t = x ++ g ++ y -> all_blank g -> g = [] \/ g = [" "%char].
Proof.
  intros Ht -> Hg.
  pose proof (spaced_gap _ _ _ _ (tidy_spaced _ Ht) Hg) as Hlen.
  destruct g as [| a [| b g]]; [by left | right | simpl in Hlen; lia].
  pose proof (tidy_space _ Ht) as Hsp.
  apply Forall_app in Hsp as [_ Hsp]. apply Forall_app in Hsp as [Hsp _].
  inversion Hsp as [| ? ? Ha _]; subst. inversion Hg; subst.
  by rewrite Ha.
Qed.

Lemma tidy_pre t g y : tidy t -> t = g ++ y -> all_blank g -> g = [].
Proof.
  intros Ht -> Hg. destruct Hg as [| a g Ha _]; [done |].
  pose proof (tidy_head _ Ht a eq_refl). congruence.
Qed.

Lemma tidy_post t x g : tidy t -> t = x ++ g -> all_blank g -> g = [].
Proof.
  intros Ht -> Hg. destruct g as [| a g _] using rev_ind; [done |].
  apply Forall_app in Hg as [_ Hg]. inversion Hg as [| ? ? Ha _]; subst.
  pose proof (tidy_last _ Ht a) as H. rewrite app_assoc, last_snoc in H.
  specialize (H eq_refl). congruence.
Qed.

Lemma tidy_segs t :
  tidy t ->
  forall segs x,
    t = x ++ unsegs segs ->
    Forall (fun sg => all_blank sg.2) segs ->
    Forall (fun sg => sg.2 = [] \/ sg.2 = [" "%char]) segs
    /\ (forall sg, last segs = Some sg -> sg.2 = []).
Proof.
  intros Ht. induction segs as [| [l g] segs IH]; intros x Hx Hsegs.
  - split; [constructor | done].
  - apply Forall_cons in Hsegs as [Hg Hrest]. simpl in Hg.
    unfold unsegs in Hx. simpl in Hx. fold (unsegs segs) in Hx.
    destruct (IH (x ++ l ++ g)) as [IH1 IH2];
      [by rewrite Hx, <- !app_assoc | done |].
    split.
    + constructor; [| done]. simpl.
      apply (tidy_gap t (x ++ l) g (unsegs segs)); [done | | done].
      by rewrite Hx, <- !app_assoc.
    + intros sg. rewrite last_cons.
      destruct (last segs) as [sg' |] eqn:E.
      * intros [= <-]. by apply IH2.
      * intros [= <-]. simpl. apply last_None in E as ->.
        apply (tidy_post t (x ++ l) g); [done | | done].
        rewrite Hx. simpl. by rewrite app_nil_r, <- app_assoc.
Qed.

Lemma rejoin_segs segs :
  (forall sg, last segs = Some sg -> sg.2 = []) ->
  rejoin (map fst segs) (removelast (map snd segs)) = unsegs segs.
Proof.
  induction segs as [| [l g] segs IH]; intros Hlast; [done |].
  destruct segs as [| sg2 segs].
  - specialize (Hlast (l, g) eq_refl). simpl in Hlast. subst g.
    unfold unsegs. simpl. by rewrite !app_nil_r.
  - change (rejoin _ _)
      with (l ++ g ++ rejoin (map fst (sg2 :: segs))
                        (removelast (map snd (sg2 :: segs)))).
    rewrite IH; [by rewrite app_assoc |].
    intros sg Hsg. apply Hlast. by rewrite last_cons, Hsg.
Qed.

(** The wrap of a tidy text, at any width: every line fits, and the
    lines with a space or nothing between them are the text. *)
Lemma wrap_tidy t width :
  tidy t -> 1 <= width ->
  exists lines seps,
    wrap t width = Ok lines
    /\ Forall (fun line => length line <= width) lines
    /\ length seps = length lines - 1
    /\ Forall (fun sep => sep = [] \/ sep = [" "%char]) seps
    /\ rejoin lines seps = t.
Proof.
  intros Ht Hw. unfold wrap, _wrap_chunks.
  destruct (Nat.leb_spec width 0) as [? | _]; [lia |].
  destruct (wrap_loop_cover width Hw (weight (_split_chunks t))
              (_split_chunks t) [] (le_n _))
    as (pre & segs & Hloop & Hpre & Hsegs & Hcat).
  rewrite (split_tidy t (tidy_space _ Ht)) in Hcat.
  assert (pre = []) as -> by (by apply (tidy_pre t pre (unsegs segs))).
  apply Forall_and in Hsegs as [Hblank Hfit].
  destruct (tidy_segs t Ht segs [] Hcat Hblank) as [Hgaps Hlast].
  exists (map fst segs), (removelast (map snd segs)).
  split; [by rewrite Hloop |].
  split; [by apply Forall_map |].
  split.
  { destruct segs as [| sg segs] using rev_ind; [done |].
    rewrite map_app. simpl. rewrite removelast_last, !length_map, length_app.
    simpl. lia. }
  split.
  { assert (Hseps : Forall (fun sep => sep = [] \/ sep = [" "%char])
                      (map snd segs)) by (by apply Forall_map).
    clear -Hseps.
    destruct segs as [| sg segs _] using rev_ind; [constructor |].
    rewrite map_app in *. simpl in *. rewrite removelast_last.
    by apply Forall_app in Hseps as [Hseps _]. }
  by rewrite rejoin_segs.
Qed.

End WrapFacts.

(** ** The retweet repair, in general *)

Module RepairFacts.
Import Re ReFacts.

(** Patterns without groups and without looking around, and the least
    number of characters that a match of such a pattern takes. *)
Fixpoint plain (r : regex) : bool :=
  match r with
  | Cat r1 r2 | Or r1 r2 => plain r1 && plain r2
  | Rep _ _ _ r' => plain r'
  | Grp _ _ | Ahead _ | Behind _ _ => false
  | _ => true
  end.

Fixpoint minlen (r : regex) : nat :=
  match r with
  | Lit _ | Dot | In _ _ => 1
  | Cat r1 r2 => minlen r1 + minlen r2
  | Or r1 r2 => Nat.min (minlen r1) (minlen r2)
  | Rep min _ _ _ => min
  | _ => 0
  end.

(** [st] is a place in [text]. *)
Definition inside (text : str) (st : mstate) : Prop :=
  wf st /\ rev (before st) ++ after st = text.

(** What a plain pattern promises on top of [sound]: the groups stay
    as they are, and at least [n] characters are taken. *)
Definition keeps (n : nat)
    (body : (mstate -> option mstate) -> mstate -> option mstate) : Prop :=
  forall k st m, wf st -> body k st = Some m ->
                 exists st', reach st st' /\ groups st' = groups st
                             /\ pos st + n <= pos st' /\ k st' = Some m.

Lemma inside_reach text st st' : inside text st -> reach st st' -> inside text st'.
Proof. intros [_ Ht] (Hwf & Heq & _). split; [done | congruence]. Qed.

Lemma inside_with_groups text st g : inside text st -> inside text (with_groups st g).
Proof. intros [Hwf Ht]. split; done. Qed.

Lemma inside_pos text st : inside text st -> pos st <= length text.
Proof.
  intros [Hwf <-]. unfold wf in Hwf. rewrite length_app, length_rev. lia.
Qed.

Lemma one_keeps test : keeps 1 (one test).
Proof.
  intros k st m Hwf H. unfold one in H.
  destruct (after st) as [| c rest] eqn:Hafter; [done |].
  destruct (test c); [| done].
  exists (advance c rest st).
  split; [by apply reach_advance |]. split; [done |].
  split; [simpl; lia | done].
Qed.

Lemma rep_loop_keeps n body min max greedy :
  keeps n body ->
  forall k fuel cnt st m,
    wf st -> rep_loop body min max greedy k fuel cnt st = Some m ->
    exists st', reach st st' /\ groups st' = groups st
                /\ min <= cnt + (pos st' - pos st) /\ k st' = Some m.
Proof.
  intros Hbody k fuel.
  induction fuel as [| fuel IH]; intros cnt st m Hwf H.
  - simpl in H.
    assert (Hk : min <= cnt /\ k st = Some m).
    { destruct greedy; destruct (Nat.leb_spec min cnt); try done;
        (split; [done |]); by destruct (k st). }
    exists st. split; [by apply reach_refl |]. split; [done |].
    split; [lia | apply Hk].
  - assert (Hagain : forall m',
              (if below cnt max
               then body (fun st' => if pos st <? pos st'
                                     then rep_loop body min max greedy k fuel
                                            (S cnt) st'
                                     else None) st
               else None) = Some m' ->
              exists st', reach st st' /\ groups st' = groups st
                          /\ min <= cnt + (pos st' - pos st) /\ k st' = Some m').
    { intros m' Hm'. destruct (below cnt max); [| done].
      apply Hbody in Hm' as (st1 & Hreach & Hg & _ & Hk); [| done].
      destruct (Nat.ltb_spec (pos st) (pos st1)) as [Hlt | ?]; [| done].
      apply IH in Hk as (st2 & Hreach2 & Hg2 & Hcnt & Hk); [| apply Hreach].
      exists st2. split; [by eapply reach_trans |]. split; [congruence |].
      split; [| done]. destruct Hreach2 as (_ & _ & Hle). lia. }
    assert (Hstop : forall m',
              (if min <=? cnt then k st else None) = Some m' ->
              exists st', reach st st' /\ groups st' = groups st
                          /\ min <= cnt + (pos st' - pos st) /\ k st' = Some m').
    { intros m' Hm'. destruct (Nat.leb_spec min cnt); [| done].
      exists st. split; [by apply reach_refl |]. split; [done |].
      split; [lia | done]. }
    simpl in H. destruct greedy.
    + destruct (if below cnt max then _ else _) as [m' |] eqn:E.
      * injection H as ->. by apply Hagain.
      * by apply Hstop.
    + destruct (if min <=? cnt then _ else _) as [m' |] eqn:E.
      * injection H as ->. by apply Hstop.
      * by apply Hagain.
Qed.

Lemma keeps_here n (k : mstate -> option mstate) (st m : mstate) :
  wf st -> k st = Some m -> n = 0 ->
  exists st', reach st st' /\ groups st' = groups st
              /\ pos st + n <= pos st' /\ k st' = Some m.
Proof.
  intros Hwf Hk ->. exists st. split; [by apply reach_refl |].
  split; [done |]. split; [lia | done].
Qed.

Lemma exec_keeps fl r : plain r = true -> keeps (minlen r) (exec fl r).
Proof.
  induction r as [| x | | negate items | r1 IH1 r2 IH2 | r1 IH1 r2 IH2
                  | min max greedy r IH | gid r IH | r IH | w r IH | | |];
    intros Hplain k st m Hwf H; simpl in H, Hplain; try done.
  - by apply keeps_here.
  - by eapply one_keeps.
  - by eapply one_keeps.
  - by eapply one_keeps.
  - apply andb_true_iff in Hplain as [Hp1 Hp2].
    apply IH1 in H as (st1 & Hr1 & Hg1 & Hn1 & H); [| done | done].
    apply IH2 in H as (st2 & Hr2 & Hg2 & Hn2 & H); [| done | apply Hr1].
    exists st2. split; [by eapply reach_trans |]. split; [congruence |].
    split; [simpl; lia | done].
  - apply andb_true_iff in Hplain as [Hp1 Hp2].
    destruct (exec fl r1 k st) as [m' |] eqn:E.
    + injection H as ->.
      apply IH1 in E as (st1 & Hr1 & Hg1 & Hn1 & H); [| done | done].
      exists st1. split; [done |]. split; [done |]. split; [simpl; lia | done].
    + apply IH2 in H as (st1 & Hr1 & Hg1 & Hn1 & H); [| done | done].
      exists st1. split; [done |]. split; [done |]. split; [simpl; lia | done].
  - eapply rep_loop_keeps in H as (st1 & Hr1 & Hg1 & Hn1 & H);
      [| by apply IH | done].
    pose proof Hr1 as (_ & _ & Hle).
    exists st1. split; [done |]. split; [done |]. split; [simpl; lia | done].
  - destruct (pos st =? 0); [| done]. by apply keeps_here.
  - destruct (after st) as [| c [| c' rest]]; try done.
    + by apply keeps_here.
    + destruct (Py.eqc c "010"); [| done]. by apply keeps_here.
  - destruct (after st); [| done]. by apply keeps_here.
Qed.

(** A plain pattern, and then the rest. *)
Lemma step_plain fl r rest k text st m :
  plain r = true -> inside text st ->
  exec fl (Cat r rest) k st = Some m ->
  exists st', inside text st' /\ groups st' = groups st
              /\ pos st + minlen r <= pos st'
              /\ exec fl rest k st' = Some m.
Proof.
  intros Hplain Hin H. simpl in H.
  apply exec_keeps in H as (st' & Hreach & Hg & Hn & H); [| done | apply Hin].
  exists st'. split; [by eapply inside_reach |]. done.
Qed.

(** A group around a plain pattern, and then the rest: the group holds
    no more than the characters passed. *)
Lemma step_group fl gid r rest k text st m :
  plain r = true -> inside text st ->
  exec fl (Cat (Grp gid r) rest) k st = Some m ->
  exists st' s,
    inside text st' /\ groups st' = (gid, s) :: groups st
    /\ pos st + minlen r <= pos st' /\ length s <= pos st' - pos st
    /\ exec fl rest k st' = Some m.
Proof.
  intros Hplain Hin H. simpl in H.
  apply exec_keeps in H as (st' & Hreach & Hg & Hn & H); [| done | apply Hin].
  exists (with_groups st' ((gid, take (pos st' - pos st) (after st))
                           :: groups st')),
    (take (pos st' - pos st) (after st)).
  split; [by eapply inside_with_groups, inside_reach |].
  split; [simpl; by rewrite Hg |]. split; [done |].
  split; [| exact H]. simpl. rewrite length_take. lia.
Qed.

(** What a match of the retweet pattern holds: the three named groups,
    which together leave out at least the marker and one space. *)
Lemma rt_match_groups text m :
  re_match str_flags rt_find_re text = Some m ->
  exists lead who trail,
    group m (GName "who") = Some who
    /\ group m (GName "lead") = Some lead
    /\ group m (GName "trail") = Some trail
    /\ length lead + length who + length trail + 3 <= length text.
Proof.
  unfold re_match, rt_find_re. intros H.
  assert (H0 : inside text (start text)) by done.
  eapply step_group in H as (st1 & lead & H1 & Hg1 & _ & Hl1 & H); [| done | done].
  eapply step_group in H as (st2 & two & H2 & Hg2 & Hn2 & _ & H); [| done | done].
  eapply step_plain in H as (st3 & H3 & Hg3 & Hn3 & H); [| done | done].
  eapply step_plain in H as (st4 & H4 & Hg4 & Hn4 & H); [| done | done].
  eapply step_group in H as (st5 & who & H5 & Hg5 & Hn5 & Hl5 & H); [| done | done].
  eapply step_plain in H as (st6 & H6 & Hg6 & Hn6 & H); [| done | done].
  eapply step_group in H as (st7 & trail & H7 & Hg7 & Hn7 & Hl7 & H); [| done | done].
  assert (m = st7) as ->.
  { simpl in H. destruct (after st7) as [| c [| c' rest]]; try done; [congruence |].
    destruct (Py.eqc c "010"); [congruence | done]. }
  exists lead, who, trail. unfold group.
  rewrite Hg7, Hg6, Hg5, Hg4, Hg3, Hg2, Hg1.
  split; [done |]. split; [done |]. split; [done |].
  apply inside_pos in H7. cbn in Hl1, Hn2, Hn3, Hn4, Hn5, Hn6, Hn7. lia.
Qed.

Lemma length_lstrip s : length (Py.lstrip s) <= length s.
Proof.
  induction s as [| c s IH]; simpl; [lia |].
  destruct (Py.isspace c); simpl; lia.
Qed.

Lemma length_strip s : length (Py.strip s) <= length s.
Proof.
  unfold Py.strip, Py.rstrip. rewrite length_rev.
  etrans; [apply length_lstrip |]. rewrite length_rev. apply length_lstrip.
Qed.

(** The repair makes a chunk longer by two characters at most: it puts
    in "RT @" and a space, and leaves out the marker and at least one
    space. *)
Lemma fix_rt_length text : length (_fix_rt text) <= length text + 2.
Proof.
  unfold _fix_rt.
  destruct (re_match str_flags rt_find_re text) as [m |] eqn:E; [| lia].
  apply rt_match_groups in E as (lead & who & trail & -> & -> & -> & Hlen).
  pose proof (length_strip (Py.lit "RT @" ++ who ++ Py.lit " " ++ lead ++ trail))
    as Hstrip.
  rewrite !length_app in Hstrip. simpl in *. lia.
Qed.

End RepairFacts.

(** ** The output reconstructor *)

(** X4.  Whatever dadadodo hands back, tweets are yielded, and none is
    longer than 142 characters: the chunks of the wrap have 140 at most, and the
    repair adds two at most. *)
Lemma extract_tweets_length (text : str) :
  exists tweets,
    _extract_tweets text = Ok tweets
    /\ Forall (fun tweet => length tweet <= TWEET_MAXLENGTH + 2) tweets.
Proof.
  destruct (WrapFacts.wrap_tidy (normalize text) TWEET_MAXLENGTH)
    as (chunks & _ & Hwrap & Hfit & _);
    [apply NormalFacts.normalize_tidy | unfold TWEET_MAXLENGTH; lia |].
  unfold _extract_tweets. rewrite Hwrap. eexists. split; [done |].
  apply Forall_map. eapply Forall_impl; [exact Hfit |].
  intros chunk Hchunk. simpl in *. unfold TWEET_MAXLENGTH in Hchunk.
  pose proof (RepairFacts.fix_rt_length chunk). lia.
Qed.

Example wrap_sample :
  TextWrap.wrap (normalize (Py.lit "  to be   or not-to-be, that is it ")) 9
  = Ok (map Py.lit ["to be or"; "not-to-"; "be, that"; "is it"]%string)
  /\ rejoin (map Py.lit ["to be or"; "not-to-"; "be, that"; "is it"]%string)
       [Py.lit " "; []; Py.lit " "]
     = normalize (Py.lit "  to be   or not-to-be, that is it ").
Proof. vm_compute. split; reflexivity. Qed.

(** C3.  Whatever the text, the wrap of the normalized text at the
    maximum length of a tweet gives chunks that are each at most 140
    characters long; and the chunks, with a space or nothing put back
    after each one but the last (a space where the wrap broke the line at
    a space, nothing where it cut a word), are the normalized text again,
    character for character. *)
Theorem wrap_bounded_lossless (text : str) :
  exists chunks seps,
    TextWrap.wrap (normalize text) TWEET_MAXLENGTH = Ok chunks
    /\ Forall (fun chunk => length chunk <= 140) chunks
    /\ length seps = length chunks - 1
    /\ Forall (fun sep => sep = [] \/ sep = [" "%char]) seps
    /\ rejoin chunks seps = normalize text.
Proof.
  apply WrapFacts.wrap_tidy.
  - apply NormalFacts.normalize_tidy.
  - unfold TWEET_MAXLENGTH. lia.
Qed.

(** The text "xrt aaa...a", with 136 times the letter a, is 140
    characters long. *)
Definition overlong_blob : str := Py.lit "xrt " ++ repeat "a"%char 136.

(** C1 fails on [overlong_blob].  The wrap leaves the 140 characters in
    one chunk; the repair finds "rt" at the end of "xrt", puts "RT @" in
    front of the a's, and the tweet that comes out has 142 characters. *)
Theorem extract_tweets_overlong :
  length overlong_blob = 140
  /\ TextWrap.wrap (normalize overlong_blob) TWEET_MAXLENGTH = Ok [overlong_blob]
  /\ _extract_tweets overlong_blob
     = Ok [Py.lit "RT @" ++ repeat "a"%char 136 ++ Py.lit " x"]
  /\ length (Py.lit "RT @" ++ repeat "a"%char 136 ++ Py.lit " x") = 142.
Proof. vm_compute. repeat split; reflexivity. Qed.

(* ===================================================================== *)
(** * Further properties *)
(* ===================================================================== *)

(** ** Substitution *)

Module SubFacts.
Import Re ReFacts RepairFacts.

(** What [sub] makes of the pieces of a scan. *)
Definition out (repl : str) (pieces : list piece) : str :=
  flat_map (fun pc => match pc with Gap s => s | Hit _ => repl end) pieces.

Lemma sub_out fl r repl text : sub fl r repl text = out repl (finditer fl r text).
Proof. reflexivity. Qed.

(** Matches of [r] are at least as long as [repl], and stay inside the
    text. *)
Definition shrinks (fl : flags) (r : regex) (repl : str) : Prop :=
  forall st k m,
    wf st -> (forall x y, k x = Some y -> y = x) ->
    exec fl r k st = Some m ->
    pos st + length repl <= pos m /\ pos m - pos st <= length (after st).

Lemma shrinks_nil fl r : shrinks fl r [].
Proof.
  intros st k m Hwf Hk H.
  apply exec_sound in H as (st' & Hreach & H); [| done].
  apply Hk in H as ->. pose proof Hreach as (_ & _ & Hle).
  apply reach_split in Hreach as [_ Hlen]; [| done]. simpl. lia.
Qed.

Lemma shrinks_plain fl r repl :
  plain r = true -> length repl <= minlen r -> shrinks fl r repl.
Proof.
  intros Hplain Hrepl st k m Hwf Hk H.
  apply exec_keeps in H as (st' & Hreach & _ & Hmin & H); [| done | done].
  apply Hk in H as ->.
  apply reach_split in Hreach as [_ Hlen]; [| done]. lia.
Qed.

Lemma advancing (p : nat) (x y : mstate) :
  (fun m' : mstate => if p <? pos m' then Some m' else None) x = Some y -> y = x.
Proof. simpl. destruct (p <? pos x); congruence. Qed.

(** A substitution whose matches are no shorter than what replaces them
    never makes the text longer. *)
Lemma scan_length fl r repl :
  shrinks fl r repl ->
  forall rest bef p skip gap,
    p = length bef -> skip <= length rest ->
    length (out repl (scan fl r bef p rest skip gap)) + skip
    <= length gap + length rest.
Proof.
  intros Hshr. unfold out.
  induction rest as [| c rest IH]; intros bef p skip gap Hp Hskip.
  - destruct skip; [| simpl in Hskip; lia]. simpl.
    set (st := {| pos := p; before := bef; after := []; groups := [] |}).
    assert (Hwf : wf st) by done.
    destruct (exec fl r Some st) as [m |] eqn:E.
    + apply Hshr in E as [Hrepl Hlen]; [| done | congruence].
      simpl in Hrepl, Hlen.
      replace (pos m - p) with 0 by lia. simpl.
      destruct (exec fl r _ st) as [m' |] eqn:E'; simpl;
        rewrite ?length_app, ?length_rev; simpl; lia.
    + simpl. rewrite app_nil_r, length_rev. lia.
  - destruct skip as [| n].
    + simpl.
      set (st := {| pos := p; before := bef; after := c :: rest;
                    groups := [] |}).
      assert (Hwf : wf st) by done.
      assert (Hnext : S p = length (c :: bef)) by (simpl; lia).
      destruct (exec fl r Some st) as [m |] eqn:E.
      * apply Hshr in E as [Hrepl Hlen]; [| done | congruence].
        simpl in Hrepl, Hlen. simpl. rewrite !length_app, length_rev.
        destruct (pos m - p) as [| n] eqn:Hd.
        -- destruct (exec fl r _ st) as [m' |] eqn:E'.
           ++ apply Hshr in E' as [Hrepl' Hlen']; [| done | apply advancing].
              simpl in Hrepl', Hlen'. simpl. rewrite length_app.
              destruct (pos m' - p) as [| n'] eqn:Hd'.
              ** specialize (IH (c :: bef) (S p) 0 [c] Hnext (Nat.le_0_l _)).
                 simpl in IH. lia.
              ** specialize (IH (c :: bef) (S p) n' [] Hnext). simpl in IH. lia.
           ++ specialize (IH (c :: bef) (S p) 0 [c] Hnext (Nat.le_0_l _)).
              simpl in IH. lia.
        -- specialize (IH (c :: bef) (S p) n [] Hnext). simpl in IH. lia.
      * specialize (IH (c :: bef) (S p) 0 (c :: gap) Hnext (Nat.le_0_l _)).
        simpl in IH. lia.
    + simpl. simpl in Hskip.
      specialize (IH (c :: bef) (S p) n gap). simpl in IH. lia.
Qed.

Lemma sub_length fl r repl text :
  shrinks fl r repl -> length (sub fl r repl text) <= length text.
Proof.
  intros H. rewrite sub_out. unfold finditer.
  pose proof (scan_length fl r repl H text [] 0 0 [] eq_refl (Nat.le_0_l _)).
  simpl in *. lia.
Qed.

(** What holds of every character of the text and of the replacement
    holds of every character of the result. *)
Lemma scan_Forall (P : ascii -> Prop) fl r repl :
  Forall P repl ->
  forall rest bef p skip gap,
    Forall P rest -> Forall P gap ->
    Forall P (out repl (scan fl r bef p rest skip gap)).
Proof.
  intros Hrepl. unfold out.
  assert (Hnil : Forall P []) by constructor.
  induction rest as [| c rest IH]; intros bef p skip gap Hrest Hgap.
  - assert (Hg : Forall P (rev gap)) by (by apply Forall_rev).
    destruct skip; simpl; [| by rewrite app_nil_r].
    destruct (exec fl r Some _) as [m |]; simpl; [| by rewrite app_nil_r].
    destruct (pos m - p); simpl;
      [destruct (exec fl r _ _); simpl |];
      repeat (apply Forall_app; split); done.
  - apply Forall_cons in Hrest as [Hc Hrest].
    assert (Hg : Forall P (rev gap)) by (by apply Forall_rev).
    assert (H1 : Forall P [c]) by (by constructor).
    assert (Hcg : Forall P (c :: gap)) by (by constructor).
    destruct skip as [| n]; simpl; [| by apply IH].
    destruct (exec fl r Some _) as [m |]; simpl; [| by apply IH].
    apply Forall_app; split; [done |]. apply Forall_app; split; [done |].
    destruct (pos m - p); [| by apply IH].
    destruct (exec fl r _ _) as [m' |]; simpl; [| by apply IH].
    apply Forall_app; split; [done |].
    destruct (pos m' - p); by apply IH.
Qed.

Lemma sub_Forall (P : ascii -> Prop) fl r repl text :
  Forall P text -> Forall P repl -> Forall P (sub fl r repl text).
Proof.
  intros Ht Hr. rewrite sub_out. by apply scan_Forall.
Qed.

(** When no match is empty, the characters that a substitution keeps
    are characters at which the pattern does not match. *)
Lemma scan_kept (P : ascii -> Prop) fl r repl :
  Forall P repl ->
  (forall st m, wf st -> exec fl r Some st = Some m -> pos st < pos m) ->
  (forall st c rest, after st = c :: rest -> exec fl r Some st = None -> P c) ->
  forall rest bef p skip gap,
    p = length bef -> Forall P gap ->
    Forall P (out repl (scan fl r bef p rest skip gap)).
Proof.
  intros Hrepl Hadv Hfail. unfold out.
  induction rest as [| c rest IH]; intros bef p skip gap Hp Hgap.
  - assert (Hg : Forall P (rev gap)) by (by apply Forall_rev).
    destruct skip; simpl; [| by rewrite app_nil_r].
    destruct (exec fl r Some _) as [m |] eqn:E; simpl; [| by rewrite app_nil_r].
    apply Hadv in E; [| done]. simpl in E.
    destruct (pos m - p) eqn:Hd; [lia |]. simpl.
    repeat (apply Forall_app; split); done || constructor.
  - assert (Hg : Forall P (rev gap)) by (by apply Forall_rev).
    assert (Hnext : S p = length (c :: bef)) by (simpl; lia).
    destruct skip as [| n]; simpl; [| by apply IH].
    destruct (exec fl r Some _) as [m |] eqn:E; simpl.
    + apply Hadv in E; [| done]. simpl in E.
      destruct (pos m - p) eqn:Hd; [lia |].
      apply Forall_app; split; [done |]. apply Forall_app; split; [done |].
      apply IH; [done | constructor].
    + apply IH; [done |]. constructor; [| done].
      by eapply Hfail in E.
Qed.

End SubFacts.

(** ** The sanitizer, in general *)

Module MungeFacts.
Import Re ReFacts RepairFacts SpaceFacts SubFacts.

Lemma exec_blanks_bytes st :
  exec (bytes_flags false) blanks Some st
  = if 1 <=? run Py.isspace_bytes (after st)
    then Some (forward (run Py.isspace_bytes (after st)) st)
    else None.
Proof.
  unfold blanks, plus, esc. simpl.
  rewrite rep_one_greedy by done.
  rewrite (run_ext _ Py.isspace_bytes); [done |].
  intros c. unfold set_match. simpl. by rewrite orb_false_r.
Qed.

(** The text after the whitespace has been collapsed: its only
    whitespace is the space. *)
Lemma sub_blanks_bytes text :
  Forall (fun c => Py.isspace_bytes c = true -> c = " "%char)
    (sub (bytes_flags false) blanks [" "%char] text).
Proof.
  rewrite sub_out. unfold finditer. apply scan_kept; try done.
  - by constructor.
  - intros st m Hwf H.
    apply (exec_keeps _ blanks) in H as (st' & _ & _ & Hmin & [= ->]);
      [| done | done].
    simpl in Hmin. lia.
  - intros st c rest Hafter H. rewrite exec_blanks_bytes, Hafter in H.
    simpl in H. destruct (Py.isspace_bytes c); [done | done].
Qed.

Lemma munge_facts (t : str) :
  Forall (fun c => (Py.code c < 128)%N
                   /\ (Py.isspace_bytes c = true -> c = " "%char)) (munge t)
  /\ length (munge t) <= length t.
Proof.
  unfold munge.
  change (Re.plus (Re.esc Re.Space)) with blanks.
  change (Py.lit " ") with [" "%char].
  set (b := Py.encode_ascii_ignore t).
  assert (Hb : Forall (fun c => (Py.code c < 128)%N) b).
  { subst b. unfold Py.encode_ascii_ignore. apply Forall_forall.
    intros c Hc. apply list_elem_of_filter in Hc. apply Hc. }
  split.
  - apply Forall_and. split.
    + apply sub_Forall; [| constructor].
      apply sub_Forall; [done |]. by constructor.
    + apply sub_Forall; [| constructor]. apply sub_blanks_bytes.
  - etrans; [apply sub_length, shrinks_nil |].
    etrans; [apply sub_length, shrinks_plain; [done | simpl; lia] |].
    subst b. apply length_filter.
Qed.

End MungeFacts.

(** X9.  What [_dadadodo_input] hands to dadadodo for a tweet is ASCII,
    has no whitespace but the space, and is no longer than the text of
    the tweet. *)
Theorem munge_clean (t : str) :
  Forall (fun c => (Py.code c < 128)%N
                   /\ (Py.isspace_bytes c = true -> c = " "%char)) (munge t)
  /\ length (munge t) <= length t.
Proof. apply MungeFacts.munge_facts. Qed.

(** ** The retweet repair: what it makes, and when *)

Module RepairShape.
Import Re ReFacts RepairFacts NormalFacts ChunkFacts.

Lemma lstrip_app u v c v' :
  v = c :: v' -> Py.isspace c = false -> Py.lstrip (u ++ v) = Py.lstrip u ++ v.
Proof.
  intros -> Hc. induction u as [| x u IH]; simpl.
  - by rewrite Hc.
  - destruct (Py.isspace x); [done | done].
Qed.

Lemma rstrip_app a b c :
  last a = Some c -> Py.isspace c = false ->
  Py.rstrip (a ++ b) = a ++ Py.rstrip b.
Proof.
  intros Hlast Hc. unfold Py.rstrip.
  destruct a as [| x a _] using rev_ind; [done |].
  rewrite last_snoc in Hlast. injection Hlast as ->.
  rewrite rev_app_distr, rev_unit.
  rewrite (lstrip_app (rev b) (c :: rev a) c (rev a)) by done.
  rewrite rev_app_distr. simpl. by rewrite rev_involutive.
Qed.

Lemma strip_rt_at x : Py.strip (Py.lit "RT @" ++ x) = Py.lit "RT @" ++ Py.rstrip x.
Proof.
  unfold Py.strip.
  change (Py.lstrip (Py.lit "RT @" ++ x)) with (Py.lit "RT @" ++ x).
  by apply (rstrip_app (Py.lit "RT @") x "@").
Qed.

(** X2.  The repair hands back the chunk as it is, or a text that
    begins with "RT @". *)
Theorem fix_rt_shape (text : str) :
  _fix_rt text = text
  \/ exists rest, _fix_rt text = Py.lit "RT @" ++ rest.
Proof.
  unfold _fix_rt.
  destruct (re_match str_flags rt_find_re text) as [m |]; [| by left].
  right. rewrite strip_rt_at. eauto.
Qed.

(** X3.  The repair changes a chunk only if the chunk holds an R and a
    T, of either case, followed by a space. *)
Theorem fix_rt_needs_marker (text : str) :
  _fix_rt text <> text ->
  exists pre c1 c2 post,
    text = pre ++ c1 :: c2 :: " "%char :: post
    /\ (c1 = "R" \/ c1 = "r")%char /\ (c2 = "T" \/ c2 = "t")%char.
Proof.
  unfold _fix_rt. intros Hne.
  destruct (re_match str_flags rt_find_re text) as [m |] eqn:H; [| done].
  clear Hne. unfold re_match, rt_find_re in H.
  assert (H0 : inside text (start text)) by done.
  eapply step_group in H as (st1 & lead & H1 & _ & _ & _ & H); [| done | done].
  simpl in H. unfold one at 1 in H.
  destruct (after st1) as [| c1 rest1] eqn:E1; [done |].
  destruct (set_match str_flags _ c1) eqn:Hc1; [| done].
  simpl in H. unfold one at 1 in H. simpl in H.
  destruct rest1 as [| c2 rest2]; [done |].
  destruct (set_match str_flags _ c2) eqn:Hc2; [| done].
  simpl in H.
  destruct rest2 as [| c3 rest3]; [done |].
  unfold one at 1 in H. simpl in H.
  destruct (lit_match str_flags " " c3) eqn:Hc3; [| done].
  apply eqc_eq in Hc3 as ->.
  exists (rev (before st1)), c1, c2, rest3.
  destruct H1 as [_ <-]. rewrite E1. split; [done |].
  unfold set_match in Hc1, Hc2. simpl in Hc1, Hc2.
  rewrite orb_false_r in Hc1, Hc2.
  apply orb_true_iff in Hc1 as [Hc1 | Hc1], Hc2 as [Hc2 | Hc2];
    apply eqc_eq in Hc1, Hc2; auto.
Qed.

Lemma fix_rt_needs_marker_witness :
  _fix_rt (Py.lit "start here") <> Py.lit "start here"
  /\ exists pre c1 c2 post,
       Py.lit "start here" = pre ++ c1 :: c2 :: " "%char :: post
       /\ (c1 = "R" \/ c1 = "r")%char /\ (c2 = "T" \/ c2 = "t")%char.
Proof.
  assert (H : _fix_rt (Py.lit "start here") <> Py.lit "start here")
    by (vm_compute; discriminate).
  split; [exact H | exact (fix_rt_needs_marker (Py.lit "start here") H)].
Defined.

End RepairShape.

(** ** Normalizing, once more *)

Module NormalMore.
Import SpaceFacts NormalFacts ChunkFacts.

(** Replacing one character by another, character by character. *)
Lemma replace_char s a b :
  Py.replace s [a] [b] = map (fun c => if Py.eqc a c then b else c) s.
Proof.
  unfold Py.replace. induction s as [| c s IH]; [done |].
  cbn [Py.replace_from Py.startswith map length Nat.sub].
  assert (Hs : Py.startswith s [] = true) by (by destruct s).
  rewrite Hs, andb_true_r. destruct (Py.eqc a c); simpl; by rewrite IH.
Qed.

Lemma replace_blank s a :
  Py.isspace a = true ->
  all_blank (Py.replace s [a] [" "%char]) <-> all_blank s.
Proof.
  intros Ha. rewrite replace_char. unfold all_blank. rewrite Forall_map.
  apply Forall_iff. intros c. simpl.
  destruct (Py.eqc a c) eqn:E; [| done].
  apply eqc_eq in E as <-. split; done.
Qed.

Lemma replace_absent s a b :
  Forall (fun c => c <> a) s -> Py.replace s [a] [b] = s.
Proof.
  intros H. rewrite replace_char. induction H as [| c s Hc _ IH]; [done |].
  simpl. rewrite IH. destruct (Py.eqc a c) eqn:E; [| done].
  apply eqc_eq in E. congruence.
Qed.

Lemma lstrip_id s :
  (forall c, head s = Some c -> Py.isspace c = false) -> Py.lstrip s = s.
Proof.
  intros H. destruct s as [| c s]; [done |]. simpl. by rewrite (H c).
Qed.

Lemma strip_id s :
  (forall c, head s = Some c -> Py.isspace c = false) ->
  (forall c, last s = Some c -> Py.isspace c = false) ->
  Py.strip s = s.
Proof.
  intros Hhead Hlast. unfold Py.strip, Py.rstrip.
  rewrite (lstrip_id s) by done.
  rewrite lstrip_id; [apply rev_involutive |].
  intros c. rewrite head_rev. apply Hlast.
Qed.

Lemma squeeze_id prev l :
  Forall (fun c => Py.isspace c = true -> c = " "%char) l ->
  spaced prev l = true -> squeeze prev l = l.
Proof.
  intros H. revert prev. induction H as [| c l Hc _ IH]; intros prev Hsp; [done |].
  simpl in *. destruct (Py.isspace c).
  - apply andb_true_iff in Hsp as [Hprev Hsp].
    destruct prev; [done |]. rewrite IH by done. by rewrite Hc.
  - by rewrite IH.
Qed.

Lemma squeeze_nil prev l : squeeze prev l = [] -> all_blank l.
Proof.
  revert prev. induction l as [| c l IH]; intros prev H; [constructor |].
  simpl in H. destruct (Py.isspace c) eqn:Hc; [| done].
  constructor; [done |]. destruct prev; [by eapply IH | done].
Qed.

Lemma normalize_squeeze text :
  normalize text
  = squeeze false
      (Py.strip (Py.replace (Py.replace text ["009"%char] [" "%char])
                   ["010"%char] [" "%char])).
Proof.
  unfold normalize. change (Re.plus (Re.esc Re.Space)) with blanks.
  change (Py.lit " ") with [" "%char]. apply sub_blanks.
Qed.

(** A tidy text is left as it is. *)
Lemma normalize_tidy_id t : tidy t -> normalize t = t.
Proof.
  intros Ht. rewrite normalize_squeeze.
  assert (Hno : forall a, Py.isspace a = true -> a <> " "%char ->
                          Forall (fun c => c <> a) t).
  { intros a Ha Hne. eapply Forall_impl; [apply (tidy_space _ Ht) |].
    intros c Hc ->. by apply Hne, Hc. }
  rewrite (replace_absent t) by (by apply Hno).
  rewrite (replace_absent t) by (by apply Hno).
  rewrite strip_id by apply Ht.
  apply squeeze_id; apply Ht.
Qed.

(** Only a text that is all whitespace is normalized to nothing. *)
Lemma normalize_nil text : normalize text = [] <-> all_blank text.
Proof.
  rewrite normalize_squeeze. split.
  - intros H. apply squeeze_nil in H.
    assert (Hs : Py.strip (Py.replace (Py.replace text ["009"%char] [" "%char])
                             ["010"%char] [" "%char]) = []).
    { destruct (Py.strip _) as [| c s] eqn:E; [done |].
      apply Forall_cons in H as [Hc _].
      assert (Py.isspace c = false) by (eapply strip_head; by rewrite E).
      congruence. }
    clear H. apply (proj1 (strip_nil _)) in Hs. rename Hs into H.
    apply (proj1 (replace_blank _ "010" eq_refl)) in H.
    by apply (proj1 (replace_blank _ "009" eq_refl)) in H.
  - intros H.
    apply (proj2 (replace_blank _ "009" eq_refl)) in H.
    apply (proj2 (replace_blank _ "010" eq_refl)) in H.
    apply (proj2 (strip_nil _)) in H. by rewrite H.
Qed.

End NormalMore.

(** X8.  Normalizing twice is normalizing once: the first two
    statements of [_extract_tweets] leave their own result as it is. *)
Theorem normalize_idempotent (text : str) :
  normalize (normalize text) = normalize text.
Proof. apply NormalMore.normalize_tidy_id, NormalFacts.normalize_tidy. Qed.

(** ** The wrap, once more *)

Module WrapMore.
Import NormalFacts ChunkFacts WrapFacts NormalMore TextWrap.

Definition full (c : str) : Prop := c <> [].

Lemma split_full t : Forall full (_split t).
Proof.
  unfold _split. apply Forall_forall. intros c Hc.
  apply list_elem_of_omap in Hc as (o & _ & Ho).
  destruct o as [[| x s] |]; simpl in Ho; try done.
  injection Ho as <-. done.
Qed.

Lemma concat_full l : Forall full l -> l = [] \/ concat l <> [].
Proof.
  destruct 1 as [| c l Hc _]; [by left | right]. simpl.
  destruct c; [done | done].
Qed.

Lemma removelast_Forall {A} (P : A -> Prop) l :
  Forall P l -> Forall P (removelast l).
Proof.
  destruct l as [| x l _] using rev_ind; [done |].
  rewrite removelast_last. intros H. by apply Forall_app in H as [H _].
Qed.

Lemma blank_nil : blank [] = true.
Proof. reflexivity. Qed.

(** What [drop_last] leaves is empty or makes a line that is not. *)
Lemma drop_last_full taken :
  Forall full taken ->
  drop_last taken = [] \/ concat (drop_last taken) <> [].
Proof.
  intros H. apply concat_full. unfold drop_last.
  destruct (last taken) as [c |]; [| done].
  destruct (blank c); [by apply removelast_Forall | done].
Qed.

Lemma drop_last_piece_full taken piece :
  Forall full taken ->
  drop_last (taken ++ [piece]) = []
  \/ concat (drop_last (taken ++ [piece])) <> [].
Proof.
  intros H. unfold drop_last. rewrite last_snoc.
  destruct (blank piece) eqn:Hb.
  - rewrite removelast_last. by apply concat_full.
  - right. rewrite concat_app. simpl. rewrite app_nil_r.
    destruct piece; [by rewrite blank_nil in Hb |].
    by destruct (concat taken).
Qed.

(** One round of the loop on chunks that are not empty: the chunks left
    are not empty, and neither is the line, if one is stored. *)
Lemma wrap_line_full width c cs lines :
  1 <= width -> Forall full (c :: cs) -> Forall full lines ->
  Forall full (wrap_line width (c :: cs) lines).1
  /\ Forall full (wrap_line width (c :: cs) lines).2.
Proof.
  intros Hw Hchunks Hlines. unfold wrap_line.
  set (chunks0 := drop_first (c :: cs) lines).
  assert (H0 : Forall full chunks0).
  { subst chunks0. unfold drop_first.
    destruct (_ && _); [by apply Forall_cons in Hchunks as [_ ?] | done]. }
  destruct (fill_spec width chunks0 [] 0)
    as (taken & rest1 & Hfill & Hsplit & Hlen & Hnofit).
  rewrite Hfill. simpl app. rewrite Nat.add_0_l in *.
  specialize (Hlen (Nat.le_0_l _)).
  rewrite Hsplit in H0. apply Forall_app in H0 as [Htaken Hrest].
  assert (Hstore : forall cur_line chunks2,
             Forall full chunks2 ->
             (drop_last cur_line = [] \/ concat (drop_last cur_line) <> []) ->
             Forall full
               (match drop_last cur_line with
                | [] => (chunks2, lines)
                | _ :: _ => (chunks2, lines ++ [concat (drop_last cur_line)])
                end).1
             /\ Forall full
                  (match drop_last cur_line with
                   | [] => (chunks2, lines)
                   | _ :: _ => (chunks2, lines ++ [concat (drop_last cur_line)])
                   end).2).
  { intros cur_line chunks2 Hc2 [Hnil | Hfull].
    - by rewrite Hnil.
    - destruct (drop_last cur_line); [done |]. simpl. split; [done |].
      apply Forall_app. split; [done | by constructor]. }
  unfold break_long. destruct rest1 as [| c1 rest'].
  - apply Hstore; [done | by apply drop_last_full].
  - destruct (Nat.ltb_spec width (length c1)) as [Hlong | Hshort].
    + destruct (handle_long_word_spec c1 rest' taken
                  (length (concat taken)) width Hw Hlen)
        as (stop & Hh & Hstop & _).
      rewrite Hh. apply Hstore; [| by apply drop_last_piece_full].
      apply Forall_cons in Hrest as [_ Hrest]. constructor; [| done].
      unfold full. intros Hd. apply (f_equal length) in Hd.
      rewrite length_drop in Hd. simpl in Hd. lia.
    + apply Hstore; [done | by apply drop_last_full].
Qed.

Lemma wrap_loop_full width :
  1 <= width ->
  forall fuel chunks lines,
    Forall full chunks -> Forall full lines ->
    Forall full (wrap_loop fuel width chunks lines).
Proof.
  intros Hw. induction fuel as [| fuel IH]; intros chunks lines Hc Hl; [done |].
  destruct chunks as [| c cs]; [done |].
  cbn [wrap_loop].
  destruct (wrap_line_full width c cs lines Hw Hc Hl) as [H1 H2].
  destruct (wrap_line width (c :: cs) lines) as [chunks' lines'].
  by apply IH.
Qed.

(** No line of a wrap is empty. *)
Lemma wrap_full t width lines :
  wrap t width = Ok lines -> Forall full lines.
Proof.
  unfold wrap, _wrap_chunks.
  destruct (Nat.leb_spec width 0) as [| Hw]; [done |].
  intros [= <-]. apply wrap_loop_full; [lia | | constructor].
  apply split_full.
Qed.

Lemma fill_all width chunks :
  forall cur_line cur_len,
    cur_len + length (concat chunks) <= width ->
    fill width chunks cur_line cur_len
    = (cur_line ++ chunks, cur_len + length (concat chunks), []).
Proof.
  induction chunks as [| c cs IH]; intros cur_line cur_len Hfit; simpl.
  - by rewrite app_nil_r, Nat.add_0_r.
  - simpl in Hfit. rewrite length_app in Hfit.
    destruct (Nat.leb_spec (cur_len + length c) width) as [_ | ?]; [| lia].
    rewrite IH by lia. rewrite <- app_assoc, length_app. simpl.
    f_equal. f_equal. lia.
Qed.

Lemma last_concat (l : list str) c :
  last l = Some c -> c <> [] -> last (concat l) = last c.
Proof.
  intros Hl Hc. destruct l as [| x l _] using rev_ind; [done |].
  rewrite last_snoc in Hl. injection Hl as ->.
  rewrite concat_app. simpl. rewrite app_nil_r.
  destruct c as [| y c _] using rev_ind; [done |].
  by rewrite app_assoc, !last_snoc.
Qed.

Lemma blank_last c x : blank c = true -> last c = Some x -> Py.isspace x = true.
Proof.
  intros Hb Hx. apply blank_spec in Hb.
  destruct c as [| y c _] using rev_ind; [done |].
  rewrite last_snoc in Hx. injection Hx as ->.
  apply Forall_app in Hb as [_ Hb]. by apply Forall_cons in Hb as [? _].
Qed.

(** A tidy text that fits the width is its own wrap, in one line. *)
Lemma wrap_short t width :
  tidy t -> t <> [] -> length t <= width -> wrap t width = Ok [t].
Proof.
  intros Ht Hne Hfit. unfold wrap, _wrap_chunks.
  assert (Hw : 1 <= width) by (destruct t; [done | simpl in Hfit; lia]).
  destruct (Nat.leb_spec width 0) as [? | _]; [lia |]. f_equal.
  pose proof (split_tidy t (tidy_space _ Ht)) as Hcat.
  pose proof (split_full (_munge_whitespace t)) as Hfull.
  fold (_split_chunks t) in Hfull.
  destruct (_split_chunks t) as [| c cs] eqn:E;
    [simpl in Hcat; congruence |].
  change (weight (c :: cs)) with (S (length c + weight cs)).
  cbn [wrap_loop].
  unfold wrap_line, drop_first. simpl bool_decide. rewrite andb_false_r.
  rewrite fill_all by (rewrite Hcat; simpl; lia).
  simpl app. unfold break_long.
  assert (Hlast : drop_last (c :: cs) = c :: cs).
  { unfold drop_last. destruct (last (c :: cs)) as [x |] eqn:El; [| done].
    destruct (blank x) eqn:Hb; [| done]. exfalso.
    assert (Hx : full x).
    { assert (Hin : x ∈ c :: cs) by (by apply last_Some_elem_of).
      apply list_elem_of_In in Hin.
      by apply (proj1 (List.Forall_forall _ _) Hfull). }
    pose proof (last_concat _ _ El Hx) as Hlc. rewrite Hcat in Hlc.
    destruct x as [| y x _] using rev_ind; [done |].
    rewrite last_snoc in Hlc.
    pose proof (tidy_last _ Ht y Hlc). 
    pose proof (blank_last _ y Hb (last_snoc _ _)). congruence. }
  rewrite Hlast. cbn beta iota zeta. rewrite Hcat.
  by destruct (length c + weight cs).
Qed.

End WrapMore.

(** ** What [_fix_rt] and [_extract_tweets] yield *)

(** X1.  The repair makes a chunk longer by two characters at most. *)
Theorem fix_rt_adds_two (text : str) : length (_fix_rt text) <= length text + 2.
Proof. apply RepairFacts.fix_rt_length. Qed.

Lemma fix_rt_full (chunk : str) : chunk <> [] -> _fix_rt chunk <> [].
Proof.
  intros Hne. unfold _fix_rt.
  destruct (Re.re_match Re.str_flags rt_find_re chunk); [| done].
  by rewrite RepairShape.strip_rt_at.
Qed.

(** X5.  No tweet that [_extract_tweets] yields is empty. *)
Theorem extract_tweets_nonempty (text : str) :
  exists tweets,
    _extract_tweets text = Ok tweets /\ Forall (fun tweet => tweet <> []) tweets.
Proof.
  destruct (WrapFacts.wrap_tidy (normalize text) TWEET_MAXLENGTH)
    as (chunks & _ & Hwrap & _);
    [apply NormalFacts.normalize_tidy | unfold TWEET_MAXLENGTH; lia |].
  unfold _extract_tweets. rewrite Hwrap. eexists. split; [done |].
  apply Forall_map. apply WrapMore.wrap_full in Hwrap.
  eapply Forall_impl; [exact Hwrap |]. intros chunk. apply fix_rt_full.
Qed.

(** X6.  [_extract_tweets] yields nothing exactly when the text is all
    whitespace (the empty text included). *)
Theorem extract_tweets_none (text : str) :
  _extract_tweets text = Ok [] <-> Forall (fun c => Py.isspace c = true) text.
Proof.
  rewrite <- (NormalMore.normalize_nil text). split.
  - destruct (WrapFacts.wrap_tidy (normalize text) TWEET_MAXLENGTH)
      as (chunks & seps & Hwrap & _ & _ & _ & Hjoin);
      [apply NormalFacts.normalize_tidy | unfold TWEET_MAXLENGTH; lia |].
    unfold _extract_tweets. rewrite Hwrap. intros [= Hmap].
    apply map_eq_nil in Hmap. subst chunks. done.
  - intros H. unfold _extract_tweets. by rewrite H.
Qed.

(** X7.  A text that is normalized to at most 140 characters, and not
    to nothing, yields one tweet: the repair of the normalized text. *)
Theorem extract_tweets_single (text : str) :
  normalize text <> [] ->
  length (normalize text) <= TWEET_MAXLENGTH ->
  _extract_tweets text = Ok [_fix_rt (normalize text)].
Proof.
  intros Hne Hfit. unfold _extract_tweets.
  rewrite WrapMore.wrap_short; [done | | done | done].
  apply NormalFacts.normalize_tidy.
Qed.

Lemma extract_tweets_single_witness :
  normalize (Py.lit "  so   it goes ") <> []
  /\ length (normalize (Py.lit "  so   it goes ")) <= TWEET_MAXLENGTH
  /\ _extract_tweets (Py.lit "  so   it goes ") = Ok [Py.lit "so it goes"].
Proof.
  assert (H1 : normalize (Py.lit "  so   it goes ") <> [])
    by (vm_compute; discriminate).
  assert (H2 : length (normalize (Py.lit "  so   it goes ")) <= TWEET_MAXLENGTH)
    by (vm_compute; lia).
  split; [exact H1 |]. split; [exact H2 |].
  exact (extract_tweets_single (Py.lit "  so   it goes ") H1 H2).
Defined.

(** ** Generation *)

Module GenFacts.

Lemma insert_head_perm {A} (t : list A) j b h :
  t !! j = Some b -> b :: <[j := h]> t ≡ₚ h :: t.
Proof.
  revert j. induction t as [| c t IH]; intros j Hj; [done |].
  destruct j as [| j]; simpl in *.
  - injection Hj as ->. apply perm_swap.
  - etrans; [apply perm_swap |]. etrans; [apply perm_skip, IH, Hj |].
    apply perm_swap.
Qed.

(** Exchanging two elements of a list makes a permutation of it. *)
Lemma swap_perm {A} (x : list A) i j a b :
  x !! i = Some a -> x !! j = Some b -> <[j := a]> (<[i := b]> x) ≡ₚ x.
Proof.
  revert i j. induction x as [| h t IH]; intros i j Hi Hj; [done |].
  destruct i as [| i], j as [| j]; simpl in *.
  - injection Hi as ->. by injection Hj as ->.
  - injection Hi as ->. by apply insert_head_perm.
  - injection Hj as ->. by apply insert_head_perm.
  - apply perm_skip. by apply IH.
Qed.

Lemma shuffle_from_perm {A} i (x : list A) tape : (shuffle_from i x tape).1 ≡ₚ x.
Proof.
  revert x tape. induction i as [| i IH]; intros x tape; [done |].
  cbn [shuffle_from]. destruct (randbelow (S (S i)) tape) as [j tape'].
  etrans; [apply IH |].
  destruct (x !! S i) as [a |] eqn:Ea; [| done].
  destruct (x !! j) as [b |] eqn:Eb; [| done].
  by eapply swap_perm.
Qed.

(** [random.shuffle] makes a permutation, whatever numbers are drawn. *)
Lemma shuffle_perm {A} (x : list A) tape : (shuffle x tape).1 ≡ₚ x.
Proof. apply shuffle_from_perm. Qed.

Section Input.
Variable Tw : TweetModule.

(** A tweet passes the filter. *)
Definition eligible (language : option string) (tweet : Tweet) : bool :=
  negb (truth language
        && negb (bool_decide (language = get_language_code Tw tweet))).

Definition yield (language : option string) (self : DoadDoad) (tweet_id : Z)
  : option bytes :=
  match state self !! tweet_id with
  | Some tweet =>
      if truth language
         && negb (bool_decide (language = get_language_code Tw tweet))
      then None
      else Some (munge (text (status tweet)))
  | None => None
  end.

Lemma dadadodo_input_yield language self w :
  (_dadadodo_input Tw language self w).1
  = omap (yield language self) (shuffle (map fst (map_to_list (state self))) (tape w)).1.
Proof.
  unfold _dadadodo_input.
  by destruct (shuffle (map fst (map_to_list (state self))) (tape w)).
Qed.

Lemma omap_yield language self (l : list (Z * Tweet)) :
  (forall k v, (k, v) ∈ l -> state self !! k = Some v) ->
  omap (yield language self) (map fst l)
  = map (fun tweet => munge (text (status tweet)))
      (List.filter (eligible language) (map snd l)).
Proof.
  induction l as [| [k v] l IH]; intros Hl; [done |].
  cbn [map omap list_omap List.filter fst snd].
  unfold yield at 1. rewrite (Hl k v) by constructor.
  fold (omap (yield language self) (map fst l)).
  rewrite IH by (intros k' v' Hin; apply Hl; by constructor).
  unfold eligible.
  by destruct (truth language
               && negb (bool_decide (language = get_language_code Tw v))).
Qed.

End Input.

End GenFacts.

(** X10.  What [_dadadodo_input] yields is, up to the order, the sanitized
    text of each stored tweet that passes the language filter: one text
    per such tweet, none twice, none left out. *)
Theorem dadadodo_input_texts (Tw : TweetModule) (language : option string)
    (self : DoadDoad) (w : World) :
  (_dadadodo_input Tw language self w).1
  ≡ₚ map (fun tweet => munge (text (status tweet)))
       (List.filter (GenFacts.eligible Tw language)
          (map snd (map_to_list (state self)))).
Proof.
  rewrite GenFacts.dadadodo_input_yield.
  rewrite (GenFacts.shuffle_perm (map fst (map_to_list (state self))) (tape w)).
  rewrite GenFacts.omap_yield; [done |].
  intros k v Hin. by apply elem_of_map_to_list.
Qed.

Module RunFacts.
Import GenFacts.

Definition ascii_only (s : bytes) : Prop := Forall (fun c => (Py.code c < 128)%N) s.

Lemma join_ascii (parts : list bytes) :
  Forall ascii_only parts -> ascii_only (Py.join [" "%char] parts).
Proof.
  induction 1 as [| p parts Hp Hparts IH]; [constructor |].
  destruct parts as [| q parts]; [done |].
  change (Py.join [" "%char] (p :: q :: parts))
    with (p ++ [" "%char] ++ Py.join [" "%char] (q :: parts)).
  apply Forall_app. split; [done |]. by constructor.
Qed.

Lemma dadadodo_input_ascii Tw language self w :
  Forall ascii_only (_dadadodo_input Tw language self w).1.
Proof.
  rewrite dadadodo_input_yield. apply Forall_forall. intros t Ht.
  apply list_elem_of_omap in Ht as (k & _ & Hk).
  unfold yield in Hk. destruct (state self !! k) as [tweet |]; [| done].
  destruct (_ && _); [done |]. injection Hk as <-.
  destruct (MungeFacts.munge_facts (text (status tweet))) as [H _].
  by apply Forall_and in H as [H _].
Qed.

Lemma dadadodo_input_world Tw language self w :
  files (_dadadodo_input Tw language self w).2 = files w
  /\ run (_dadadodo_input Tw language self w).2 = run w
  /\ launched (_dadadodo_input Tw language self w).2 = launched w.
Proof.
  unfold _dadadodo_input.
  by destruct (shuffle (map fst (map_to_list (state self))) (tape w)).
Qed.

(** The tweets that come out of any text. *)
Lemma extract_tweets_ok text :
  exists tweets,
    _extract_tweets text = Ok tweets
    /\ Forall (fun tweet => tweet <> [] /\ length tweet <= 142) tweets.
Proof.
  destruct (WrapFacts.wrap_tidy (normalize text) TWEET_MAXLENGTH)
    as (chunks & _ & Hwrap & Hfit & _);
    [apply NormalFacts.normalize_tidy | unfold TWEET_MAXLENGTH; lia |].
  unfold _extract_tweets. rewrite Hwrap. eexists. split; [done |].
  apply Forall_map. pose proof (WrapMore.wrap_full _ _ _ Hwrap) as Hfull.
  pose proof (conj Hfull Hfit) as H. apply Forall_and in H.
  eapply Forall_impl; [exact H |]. intros chunk [Hne Hlen]. simpl in *.
  split; [by apply fix_rt_full |].
  pose proof (RepairFacts.fix_rt_length chunk).
  unfold TWEET_MAXLENGTH in Hlen. lia.
Qed.

End RunFacts.

(** X11.  With no language filter, or with one that is a detectable
    code,
    [generate_tweets] launches dadadodo once, with the command line of
    the store and an input that is ASCII; it touches no file; and it
    either yields tweets, none empty and none longer than 142
    characters, or raises [UnicodeDecodeError], which it does exactly
    when dadadodo's output is not ASCII.  It never raises
    [DoadDoadError]. *)
Theorem generate_tweets_runs (Tw : TweetModule) (language : option string)
    (self : DoadDoad) (w : World) :
  (truth language = true -> member language (language_codes Tw) = true) ->
  exists input,
    launched (generate_tweets Tw language self w).2
    = (dadadodo_cmd self ++ dadadodo_opts self, input) :: launched w
    /\ Forall (fun c => (Py.code c < 128)%N) input
    /\ files (generate_tweets Tw language self w).2 = files w
    /\ match Py.decode_ascii
               (run w (dadadodo_cmd self ++ dadadodo_opts self) input) with
       | Some _ =>
           exists tweets,
             (generate_tweets Tw language self w).1 = Ok tweets
             /\ Forall (fun tweet => tweet <> [] /\ length tweet <= 142) tweets
       | None => (generate_tweets Tw language self w).1 = Raise UnicodeDecodeError
       end.
Proof.
  intros Hlang. unfold generate_tweets.
  assert (Hguard : truth language && negb (member language (language_codes Tw))
                   = false).
  { destruct (truth language); [| done]. by rewrite Hlang. }
  rewrite Hguard.
  pose proof (RunFacts.dadadodo_input_ascii Tw language self w) as Hascii.
  pose proof (RunFacts.dadadodo_input_world Tw language self w)
    as (Hfiles & Hrun & Hlaunched).
  destruct (_dadadodo_input Tw language self w) as [texts w1]. simpl in *.
  exists (Py.join (Py.lit " ") texts). unfold _run_dadadodo. rewrite Hrun.
  destruct (Py.decode_ascii _) as [blob |] eqn:E; simpl.
  - split; [by rewrite Hlaunched |].
    split; [by apply RunFacts.join_ascii |]. split; [done |].
    apply RunFacts.extract_tweets_ok.
  - split; [by rewrite Hlaunched |].
    split; [by apply RunFacts.join_ascii |]. done.
Qed.

Lemma generate_tweets_runs_witness :
  (truth (Some "en"%string) = true
   -> member (Some "en"%string) (language_codes sample_tweets) = true)
  /\ exists input,
       launched (generate_tweets sample_tweets (Some "en"%string)
                   sample_store sample_world).2
       = (dadadodo_cmd sample_store ++ dadadodo_opts sample_store, input)
         :: launched sample_world.
Proof.
  assert (H : truth (Some "en"%string) = true
              -> member (Some "en"%string) (language_codes sample_tweets) = true)
    by (intros _; vm_compute; reflexivity).
  split; [exact H |].
  destruct (generate_tweets_runs sample_tweets (Some "en"%string)
              sample_store sample_world H) as (input & Hl & _).
  exists input. exact Hl.
Defined.

(** X12.  On an empty corpus dadadodo is launched all the same, with an
    empty input, and no random number is drawn. *)
Theorem generate_tweets_empty_corpus (Tw : TweetModule)
    (language : option string) (self : DoadDoad) (w : World) :
  state self = ∅ ->
  (truth language = true -> member language (language_codes Tw) = true) ->
  (generate_tweets Tw language self w).2
  = {| files := files w; run := run w;
       launched := (dadadodo_cmd self ++ dadadodo_opts self, []) :: launched w;
       tape := tape w |}
  /\ (generate_tweets Tw language self w).1
     = match Py.decode_ascii
               (run w (dadadodo_cmd self ++ dadadodo_opts self) []) with
       | Some blob => _extract_tweets blob
       | None => Raise UnicodeDecodeError
       end.
Proof.
  intros Hempty Hlang. unfold generate_tweets.
  assert (Hguard : truth language && negb (member language (language_codes Tw))
                   = false).
  { destruct (truth language); [| done]. by rewrite Hlang. }
  rewrite Hguard. unfold _dadadodo_input. rewrite Hempty, map_to_list_empty.
  simpl. unfold _run_dadadodo. simpl.
  by destruct (Py.decode_ascii _).
Qed.

Lemma generate_tweets_empty_corpus_witness :
  state (set_state sample_store ∅) = ∅
  /\ (truth None = true -> member None (language_codes sample_tweets) = true)
  /\ launched (generate_tweets sample_tweets None (set_state sample_store ∅)
                 sample_world).2
     = [(["/usr/bin/dadadodo"; "-c"; "1"; "-"]%string, [])].
Proof.
  assert (H1 : state (set_state sample_store ∅) = ∅) by reflexivity.
  assert (H2 : truth None = true
               -> member None (language_codes sample_tweets) = true)
    by discriminate.
  split; [exact H1 |]. split; [exact H2 |].
  rewrite (proj1 (generate_tweets_empty_corpus sample_tweets None
                    (set_state sample_store ∅) sample_world H1 H2)).
  reflexivity.
Defined.

(** ** Trimming, once more *)

Module TrimMore.

(** Deleting the [k] smallest ids: so many entries go, as far as there
    are any, and every id that goes is below every id that stays. *)
Lemma delete_smallest (st : gmap Z Tweet) (k : nat) :
  let st' := delete_all st (take k (sorted st)) in
  size st' = size st - Nat.min k (size st)
  /\ st' ⊆ st
  /\ forall kept gone,
       kept ∈ dom st' -> gone ∈ dom st -> gone ∉ dom st' -> (gone < kept)%Z.
Proof.
  simpl.
  assert (Hsplit : take k (sorted st) ++ drop k (sorted st) = sorted st)
    by apply take_drop.
  pose proof (NoDup_sorted st) as Hnd. rewrite <- Hsplit in Hnd.
  apply NoDup_app in Hnd as (Hnd1 & Hdisj & _).
  pose proof (sorted_increasing st) as Hinc. rewrite <- Hsplit in Hinc.
  split; [| split].
  - rewrite size_delete_all; [| done |].
    + by rewrite length_take, length_sorted.
    + intros x Hx. apply elem_of_sorted. rewrite <- Hsplit.
      apply elem_of_app. by left.
  - apply delete_all_subseteq.
  - intros kept gone Hkept Hgone Hnot.
    apply elem_of_dom in Hkept as [v Hv].
    rewrite lookup_delete_all in Hv.
    destruct (decide (kept ∈ take k (sorted st))) as [? | Hk]; [done |].
    assert (Hg : gone ∈ take k (sorted st)).
    { destruct (decide (gone ∈ take k (sorted st))) as [? | Hg]; [done |].
      exfalso. apply Hnot, elem_of_dom. rewrite lookup_delete_all.
      rewrite decide_False by done. by apply elem_of_dom. }
    assert (Hk' : kept ∈ drop k (sorted st)).
    { assert (Hin : kept ∈ sorted st)
        by (apply elem_of_sorted, elem_of_dom; eauto).
      rewrite <- Hsplit in Hin. by apply elem_of_app in Hin as [? | ?]. }
    pose proof (StronglySorted_app_1_elem_of Z.le _ _ _ _ Hinc Hg Hk') as Hle.
    assert (gone <> kept) by (intros ->; by apply (Hdisj kept)).
    lia.
Qed.

(** With a negative limit, [[:-limit]] is the first [-limit]. *)
Lemma slice_to_pos {A} (l : list A) (limit : Z) :
  (limit < 0)%Z -> Py.slice_to l (- limit) = take (Z.to_nat (- limit)) l.
Proof.
  intros Hneg. unfold Py.slice_to.
  destruct (Z.ltb_spec (- limit) 0) as [? | _]; [lia |].
  destruct (Z.le_gt_cases (- limit) (Z.of_nat (length l))) as [Hle | Hgt].
  - by rewrite Z.min_l.
  - rewrite Z.min_r by lia. rewrite Nat2Z.id.
    rewrite take_ge by lia. by rewrite take_ge by lia.
Qed.

Lemma trim_state (limit : Z) (self : DoadDoad) :
  state (_trim_state limit self)
  = if (limit =? 0)%Z then state self
    else delete_all (state self)
           (take (if (limit <? 0)%Z then Z.to_nat (- limit)
                  else size (state self) - Z.to_nat limit)
              (sorted (state self))).
Proof.
  unfold _trim_state. destruct (Z.eqb_spec limit 0) as [| Hne]; [done |].
  simpl. unfold delete_all. f_equal.
  destruct (Z.ltb_spec limit 0) as [Hneg | Hpos].
  - by apply slice_to_pos.
  - rewrite slice_to_neg by lia. by rewrite length_sorted.
Qed.

Lemma set_state_same (self : DoadDoad) : set_state self (state self) = self.
Proof. by destruct self. Qed.

Lemma trim_twice (limit : Z) (self : DoadDoad) :
  (0 <= limit)%Z ->
  _trim_state limit (_trim_state limit self) = _trim_state limit self.
Proof.
  intros Hpos. unfold _trim_state at 1.
  destruct (Z.eqb_spec limit 0) as [| Hne]; [done |].
  rewrite slice_to_neg by lia.
  assert (Hlen : length (sorted (state (_trim_state limit self)))
                 - Z.to_nat limit = 0).
  { rewrite length_sorted, trim_state.
    destruct (Z.eqb_spec limit 0) as [| _]; [done |].
    destruct (Z.ltb_spec limit 0) as [| _]; [lia |].
    destruct (delete_smallest (state self) (size (state self) - Z.to_nat limit))
      as [Hsize _].
    simpl in Hsize. rewrite Hsize. lia. }
  rewrite Hlen. simpl. apply set_state_same.
Qed.

End TrimMore.

(** X13.  A negative limit does not keep the newest tweets: it deletes the
    [-limit] tweets with the smallest ids, all of them when there are no
    more than that. *)
Theorem trim_state_negative (limit : Z) (self : DoadDoad) :
  (limit < 0)%Z ->
  let st' := state (_trim_state limit self) in
  size st' = size (state self) - Nat.min (Z.to_nat (- limit)) (size (state self))
  /\ st' ⊆ state self
  /\ forall kept gone,
       kept ∈ dom st' -> gone ∈ dom (state self) -> gone ∉ dom st' ->
       (gone < kept)%Z.
Proof.
  intros Hneg. simpl. rewrite TrimMore.trim_state.
  destruct (Z.eqb_spec limit 0) as [| _]; [lia |].
  destruct (Z.ltb_spec limit 0) as [_ |]; [| lia].
  apply TrimMore.delete_smallest.
Qed.

Lemma trim_state_negative_witness :
  (-1 < 0)%Z
  /\ size (state (_trim_state (-1) sample_store))
     = size (state sample_store)
       - Nat.min (Z.to_nat (- -1)) (size (state sample_store)).
Proof.
  assert (H : (-1 < 0)%Z) by lia.
  split; [exact H | exact (proj1 (trim_state_negative (-1) sample_store H))].
Defined.

Example trim_state_negative_sample :
  dom (state (_trim_state (-1) sample_store)) = {[5%Z; 7%Z]}.
Proof. vm_compute. reflexivity. Qed.

(** X14.  Saving twice with the same limit, not negative, is saving once:
    the second trim finds nothing to delete, and the same file is
    written again. *)
Theorem save_state_twice (limit : Z) (self : DoadDoad) (w : World) :
  (0 <= limit)%Z ->
  save_state limit (save_state limit self w).1 (save_state limit self w).2
  = save_state limit self w.
Proof.
  intros Hpos. unfold save_state. simpl.
  rewrite TrimMore.trim_twice by done. f_equal.
  unfold write_file. simpl. f_equal. apply insert_insert_eq.
Qed.

Lemma save_state_twice_witness :
  (0 <= 2)%Z
  /\ save_state 2 (save_state 2 sample_store sample_world).1
       (save_state 2 sample_store sample_world).2
     = save_state 2 sample_store sample_world.
Proof.
  split; [lia | apply (save_state_twice 2 sample_store sample_world); lia].
Defined.

(** ** Timelines *)

Module TimelineFacts.

(** The first status of a timeline with a given id. *)
Definition first_with (k : Z) (timeline : list Status) : option Status :=
  List.find (fun s => bool_decide (id s = k)) timeline.

Lemma add_all_lookup (timeline : list Status) :
  forall (self : DoadDoad) (k : Z),
    state (foldl add_unseen self timeline) !! k
    = match state self !! k with
      | Some tweet => Some tweet
      | None => (fun s => {| status := s |}) <$> first_with k timeline
      end.
Proof.
  induction timeline as [| t timeline IH]; intros self k.
  - simpl. by destruct (state self !! k).
  - cbn [foldl]. rewrite IH. unfold first_with. cbn [List.find].
    fold (first_with k timeline).
    destruct (decide (id t ∈ dom (state self))) as [Hin | Hout].
    + rewrite add_unseen_seen by done.
      destruct (state self !! k) as [tweet |] eqn:E; [done |].
      rewrite bool_decide_eq_false_2; [done |].
      intros Heq. subst k. apply elem_of_dom in Hin as [? ?]. congruence.
    + rewrite add_unseen_new by done. cbn [state set_state].
      destruct (decide (id t = k)) as [<- | Hne].
      * rewrite lookup_insert_eq, bool_decide_eq_true_2 by done.
        apply not_elem_of_dom in Hout. by rewrite Hout.
      * rewrite lookup_insert_ne by done.
        by rewrite bool_decide_eq_false_2 by done.
Qed.

End TimelineFacts.

(** X15.  What [add_timeline] leaves in the state under an id: the tweet
    that was there, if there was one; otherwise the first status of the
    timeline with that id, if there is one; otherwise nothing.  When the
    timeline cannot be had, the store is left as it is. *)
Theorem add_timeline_lookup (twitter : Api) (user : Z) (count : nat)
    (self : DoadDoad) (k : Z) :
  match GetUserTimeline twitter user count with
  | Answered timeline =>
      state (add_timeline twitter user count self) !! k
      = match state self !! k with
        | Some tweet => Some tweet
        | None =>
            (fun s => {| status := s |})
              <$> List.find (fun s => bool_decide (id s = k)) timeline
        end
  | TwitterError _ => add_timeline twitter user count self = self
  end.
Proof.
  unfold add_timeline.
  destruct (GetUserTimeline twitter user count) as [timeline | msg]; [| done].
  apply TimelineFacts.add_all_lookup.
Qed.

(* ===================================================================== *)
(** ** Updating the state from the followers *)
(* ===================================================================== *)

(** What the program reads of a [twitter.User]: its [id] (the name and
    the screen name only reach the log). *)
Record User : Type := { user_id : Z }.

(** The calls that [update] makes on the twitter API. *)
Inductive call : Type :=
| CallGetFollowers
| CallGetFriends
| CallCreateFriendship (user : Z)
| CallGetUserTimeline (user : Z) (count : nat).

(** The twitter service, seen from the program: what a call answers may
    depend on all the calls made before (latest first).  What
    [CreateFriendship] answers only reaches the log, so it is left
    out. *)
Record Service : Type := {
  GetFollowers : list call -> answer (list User);
  GetFriends : list call -> answer (list User);
  UserTimeline : list call -> Z -> nat -> answer (list Status)
}.

(** The API as [add_timeline] meets it after the calls [h]. *)
Definition api_at (twitter : Service) (h : list call) : Api :=
  {| GetUserTimeline := UserTimeline twitter h |}.

Section Update.
(** The order in which Python walks through a set. *)
Variable walk : gset Z -> list Z.

(** Follow back each of our followers.  A [TwitterError] of
    [GetFollowers] or [GetFriends] is not caught; one of
    [CreateFriendship] is logged.  The calls made are added to [h]. *)
Definition _followback (twitter : Service) (h : list call)
  : answer unit * list call :=
  match GetFollowers twitter h with
  | TwitterError e => (TwitterError e, CallGetFollowers :: h)
  | Answered users =>
      let followers : gset Z := list_to_set (map user_id users) in
      let h := CallGetFollowers :: h in
      match GetFriends twitter h with
      | TwitterError e => (TwitterError e, CallGetFriends :: h)
      | Answered users =>
          let following : gset Z := list_to_set (map user_id users) in
          let h := CallGetFriends :: h in
          (Answered tt,
           foldl (fun h user_id => CallCreateFriendship user_id :: h) h
             (walk (followers ∖ following)))
      end
  end.

(** The loop of [update] over the followers. *)
Definition add_timelines (twitter : Service) (followers : list User)
    (self : DoadDoad) (h : list call) : DoadDoad * list call :=
  foldl (fun '(self, h) follower =>
           (add_timeline (api_at twitter h) (user_id follower) 20 self,
            CallGetUserTimeline (user_id follower) 20 :: h))
    (self, h) followers.

(** Update the state with new timelines from all followers.  The result
    holds what was raised, if anything, the store, the calls made, and
    the random numbers left. *)
Definition update (twitter : Service) (probability maxupdates : Z)
    (self : DoadDoad) (h : list call) (tape : list nat)
  : answer unit * DoadDoad * list call * list nat :=
  match _followback twitter h with
  | (TwitterError e, h) => (TwitterError e, self, h, tape)
  | (Answered _, h) =>
      match GetFollowers twitter h with
      | TwitterError e => (TwitterError e, self, CallGetFollowers :: h, tape)
      | Answered followers =>
          let h := CallGetFollowers :: h in
          let '(followers, tape) :=
            if (0 <? maxupdates)%Z
            then let '(followers, tape) := shuffle followers tape in
                 (Py.slice_to followers maxupdates, tape)
            else (followers, tape) in
          let '(self, h) := add_timelines twitter followers self h in
          (Answered tt, self, h, tape)
      end
  end.

End Update.

Module UpdateFacts.

Definition is_timeline_call (c : call) : bool :=
  match c with
  | CallGetUserTimeline _ _ => true
  | _ => false
  end.

Definition timeline_calls (h : list call) : nat :=
  length (List.filter is_timeline_call h).

Lemma timeline_calls_app h1 h2 :
  timeline_calls (h1 ++ h2) = timeline_calls h1 + timeline_calls h2.
Proof. unfold timeline_calls. by rewrite List.filter_app, length_app. Qed.

Lemma add_timeline_keeps twitter user count self :
  state self ⊆ state (add_timeline twitter user count self).
Proof.
  unfold add_timeline.
  destruct (GetUserTimeline twitter user count); [apply add_all_keeps | done].
Qed.

Lemma add_timelines_spec twitter followers :
  forall self h,
    state self ⊆ state (add_timelines twitter followers self h).1
    /\ exists new,
         (add_timelines twitter followers self h).2 = new ++ h
         /\ timeline_calls new = length followers
         /\ length new = length followers.
Proof.
  unfold add_timelines.
  induction followers as [| f followers IH]; intros self h.
  - split; [done |]. by exists [].
  - cbn [foldl].
    destruct (IH (add_timeline (api_at twitter h) (user_id f) 20 self)
                (CallGetUserTimeline (user_id f) 20 :: h))
      as (Hsub & new & Hnew & Hcount & Hlen).
    split.
    + etrans; [apply add_timeline_keeps | exact Hsub].
    + exists (new ++ [CallGetUserTimeline (user_id f) 20]).
      rewrite Hnew, <- app_assoc. split; [done |].
      rewrite timeline_calls_app, length_app, Hcount, Hlen.
      split; [unfold timeline_calls; simpl; lia | simpl; lia].
Qed.

Lemma befriend_calls (ids : list Z) :
  forall h,
    exists new,
      foldl (fun h user_id => CallCreateFriendship user_id :: h) h ids = new ++ h
      /\ timeline_calls new = 0
      /\ forall user, CallCreateFriendship user ∈ new -> user ∈ ids.
Proof.
  induction ids as [| i ids IH]; intros h.
  - exists []. split; [done |]. split; [done |]. by intros user Hin%elem_of_nil.
  - cbn [foldl]. destruct (IH (CallCreateFriendship i :: h))
      as (new & Hnew & Hcount & Hin).
    exists (new ++ [CallCreateFriendship i]).
    rewrite Hnew, <- app_assoc. split; [done |].
    split; [by rewrite timeline_calls_app, Hcount |].
    intros user Huser. apply elem_of_app in Huser as [Huser | Huser].
    + right. by apply Hin.
    + apply list_elem_of_singleton in Huser as [= ->]. left.
Qed.

Lemma followback_spec walk twitter h :
  exists new,
    (_followback walk twitter h).2 = new ++ h
    /\ timeline_calls new = 0
    /\ forall user,
         CallCreateFriendship user ∈ new ->
         exists followers friends,
           GetFollowers twitter h = Answered followers
           /\ GetFriends twitter (CallGetFollowers :: h) = Answered friends
           /\ user ∈ walk (list_to_set (map user_id followers)
                           ∖ list_to_set (map user_id friends)).
Proof.
  unfold _followback.
  assert (Hno : forall c user, c <> CallCreateFriendship user ->
                               CallCreateFriendship user ∉ [c]).
  { intros c user Hc Hin. apply list_elem_of_singleton in Hin. congruence. }
  destruct (GetFollowers twitter h) as [followers | e].
  - destruct (GetFriends twitter _) as [friends | e].
    + destruct (befriend_calls
                  (walk (list_to_set (map user_id followers)
                         ∖ list_to_set (map user_id friends)))
                  (CallGetFriends :: CallGetFollowers :: h))
        as (new & Hnew & Hcount & Hin).
      exists (new ++ [CallGetFriends; CallGetFollowers]). simpl.
      rewrite Hnew, <- app_assoc. split; [done |].
      split; [by rewrite timeline_calls_app, Hcount |].
      intros user Huser. exists followers, friends.
      split; [done |]. split; [done |].
      apply elem_of_app in Huser as [Huser | Huser]; [by apply Hin |].
      apply elem_of_cons in Huser as [? | Huser]; [done |].
      by apply list_elem_of_singleton in Huser.
    + exists [CallGetFriends; CallGetFollowers]. simpl.
      split; [done |]. split; [done |].
      intros user Huser.
      apply elem_of_cons in Huser as [? | Huser]; [done |].
      by apply list_elem_of_singleton in Huser.
  - exists [CallGetFollowers]. simpl. split; [done |]. split; [done |].
    intros user Huser. by apply list_elem_of_singleton in Huser.
Qed.

Lemma length_slice_to {A} (l : list A) (stop : Z) :
  (0 < stop)%Z -> length (Py.slice_to l stop) <= Z.to_nat stop.
Proof.
  intros Hpos. unfold Py.slice_to.
  destruct (Z.ltb_spec stop 0) as [? | _]; [lia |].
  rewrite length_take. lia.
Qed.

End UpdateFacts.

(** X16.  [update] never takes a tweet out of the state nor changes one;
    and when it raises, the state is as it was. *)
Theorem update_keeps (walk : gset Z -> list Z) (twitter : Service)
    (probability maxupdates : Z) (self : DoadDoad) (h : list call)
    (tape : list nat) :
  let '(outcome, self', _, _) :=
    update walk twitter probability maxupdates self h tape in
  state self ⊆ state self'
  /\ (outcome <> Answered tt -> self' = self).
Proof.
  unfold update.
  destruct (_followback walk twitter h) as [[[] | e] h1]; [| done].
  destruct (GetFollowers twitter h1) as [followers | e]; [| done].
  destruct (if (0 <? maxupdates)%Z then _ else _) as [followers' tape'].
  pose proof (UpdateFacts.add_timelines_spec twitter followers' self
                (CallGetFollowers :: h1)) as [Hsub _].
  destruct (add_timelines twitter followers' self _) as [self' h2].
  split; [done | done].
Qed.

(** X17.  With a positive [maxupdates], [update] fetches no more
    timelines than that. *)
Theorem update_bounded (walk : gset Z -> list Z) (twitter : Service)
    (probability maxupdates : Z) (self : DoadDoad) (h : list call)
    (tape : list nat) :
  (0 < maxupdates)%Z ->
  exists new,
    (update walk twitter probability maxupdates self h tape).1.2 = new ++ h
    /\ UpdateFacts.timeline_calls new <= Z.to_nat maxupdates.
Proof.
  intros Hpos. unfold update.
  destruct (UpdateFacts.followback_spec walk twitter h)
    as (new1 & Hnew1 & Hcount1 & _).
  destruct (_followback walk twitter h) as [[[] | e] h1]; simpl in Hnew1;
    subst h1; [| exists new1; split; [done | lia]].
  destruct (GetFollowers twitter (new1 ++ h)) as [followers | e].
  - destruct (Z.ltb_spec 0 maxupdates) as [_ | ?]; [| lia].
    destruct (shuffle followers tape) as [shuffled tape'].
    pose proof (UpdateFacts.add_timelines_spec twitter
                  (Py.slice_to shuffled maxupdates) self
                  (CallGetFollowers :: new1 ++ h))
      as (_ & new2 & Hnew2 & Hcount2 & _).
    destruct (add_timelines twitter _ self _) as [self' h2].
    simpl in *. subst h2.
    exists (new2 ++ CallGetFollowers :: new1).
    split; [by rewrite <- app_assoc |].
    rewrite UpdateFacts.timeline_calls_app, Hcount2.
    change (CallGetFollowers :: new1) with ([CallGetFollowers] ++ new1).
    rewrite UpdateFacts.timeline_calls_app, Hcount1. simpl.
    pose proof (UpdateFacts.length_slice_to shuffled maxupdates Hpos). lia.
  - exists (CallGetFollowers :: new1). split; [done |].
    change (CallGetFollowers :: new1) with ([CallGetFollowers] ++ new1).
    rewrite UpdateFacts.timeline_calls_app, Hcount1. simpl. lia.
Qed.

Definition sample_service : Service :=
  {| GetFollowers := fun _ => Answered [ {| user_id := 1 |}; {| user_id := 2 |};
                                         {| user_id := 3 |} ];
     GetFriends := fun _ => Answered [ {| user_id := 2 |} ];
     UserTimeline := fun _ user _ =>
       Answered [ {| id := 10 + user; text := Py.lit "hello" |} ] |}.

Lemma update_bounded_witness :
  (0 < 2)%Z
  /\ exists new,
       (update elements sample_service 33 2 sample_store [] []).1.2 = new ++ []
       /\ UpdateFacts.timeline_calls new <= Z.to_nat 2.
Proof.
  assert (H : (0 < 2)%Z) by lia.
  split; [exact H |].
  exact (update_bounded elements sample_service 33 2 sample_store [] [] H).
Defined.

(** X18.  [_followback] asks to follow only users that [GetFollowers]
    answered and [GetFriends] did not, provided that walking through a
    set meets nothing but its elements. *)
Theorem followback_only_new (walk : gset Z -> list Z) (twitter : Service)
    (h : list call) :
  (forall (s : gset Z) (x : Z), x ∈ walk s -> x ∈ s) ->
  exists new,
    (_followback walk twitter h).2 = new ++ h
    /\ forall user,
         CallCreateFriendship user ∈ new ->
         exists followers friends,
           GetFollowers twitter h = Answered followers
           /\ GetFriends twitter (CallGetFollowers :: h) = Answered friends
           /\ user ∈ map user_id followers
           /\ user ∉ map user_id friends.
Proof.
  intros Hwalk.
  destruct (UpdateFacts.followback_spec walk twitter h)
    as (new & Hnew & _ & Hin).
  exists new. split; [done |]. intros user Huser.
  destruct (Hin user Huser) as (followers & friends & H1 & H2 & H3).
  exists followers, friends. split; [done |]. split; [done |].
  apply Hwalk in H3. apply elem_of_difference in H3 as [Ha Hb].
  rewrite elem_of_list_to_set in Ha. rewrite elem_of_list_to_set in Hb. done.
Qed.

Lemma followback_only_new_witness :
  (forall (s : gset Z) (x : Z), x ∈ elements s -> x ∈ s)
  /\ exists new, (_followback elements sample_service []).2 = new ++ [].
Proof.
  assert (H : forall (s : gset Z) (x : Z), x ∈ elements s -> x ∈ s)
    by (intros s x; apply elem_of_elements).
  split; [exact H |].
  destruct (followback_only_new elements sample_service [] H) as (new & Hn & _).
  exists new. exact Hn.
Defined.

Example update_sample :
  dom (state (update elements sample_service 33 0 sample_store [] []).1.1.2)
  = {[3%Z; 5%Z; 7%Z; 11%Z; 12%Z; 13%Z]}.
Proof. vm_compute. reflexivity. Qed.
